(** * falcoctl root command: configuration resolution and signal context

    A shallow embedding of [cmd/root.go].  First the model, in the order of
    the Go source: the string and path helpers the code leans on, the flag
    registry ([pflag.FlagSet]), the layered configuration store ([viper]),
    the logger, the process state, the functions of [root.go] themselves,
    and the goroutine of [WithSignals] as a transition system.  Then the
    specification, and the properties proved of the model. *)

From Stdlib Require Import Ascii String.
From stdpp Require Import base option list strings gmap fin_maps.

Local Open Scope string_scope.

(** ** Strings *)

Module Strings.

(** Case mapping and single-byte replacement on Go strings.  A string is
    its bytes; [is_ascii] tells the strings all of whose bytes are below
    128, on which Go's case mapping is the byte-wise one defined here.  (On
    other strings Go maps the letters of every script, which these
    definitions do not follow: the properties of names below assume
    [is_ascii].) *)

Fixpoint is_ascii (s : string) : bool :=
  match s with
  | EmptyString => true
  | String c s' => (nat_of_ascii c <? 128)%nat && is_ascii s'
  end.

Definition is_lower (c : ascii) : bool :=
  (97 <=? nat_of_ascii c)%nat && (nat_of_ascii c <=? 122)%nat.

Definition is_upper (c : ascii) : bool :=
  (65 <=? nat_of_ascii c)%nat && (nat_of_ascii c <=? 90)%nat.

Definition upper_ascii (c : ascii) : ascii :=
  if is_lower c then ascii_of_nat (nat_of_ascii c - 32) else c.

Definition lower_ascii (c : ascii) : ascii :=
  if is_upper c then ascii_of_nat (nat_of_ascii c + 32) else c.

Fixpoint map_string (f : ascii → ascii) (s : string) : string :=
  match s with
  | EmptyString => EmptyString
  | String c s' => String (f c) (map_string f s')
  end.

(** [strings.ToUpper] and [strings.ToLower], on [is_ascii] strings. *)
Definition ToUpper : string → string := map_string upper_ascii.
Definition ToLower : string → string := map_string lower_ascii.

(** [strings.NewReplacer(old, new)] for one-byte [old] and [new]: every
    occurrence of [old] becomes [new], nothing else changes. *)
Record Replacer := NewReplacer { r_old : ascii; r_new : ascii }.

Definition replace_ascii (r : Replacer) (c : ascii) : ascii :=
  if Ascii.eqb c (r_old r) then r_new r else c.

Definition Replace (r : Replacer) : string → string :=
  map_string (replace_ascii r).

(** [strings.Join]. *)
Fixpoint Join (l : list string) (sep : string) : string :=
  match l with
  | [] => ""
  | [s] => s
  | s :: l' => s ++ sep ++ Join l' sep
  end.

End Strings.

(** ** Paths: [path/filepath] *)

Module filepath.

(** The elements of a path, between its separators. *)
Fixpoint split (s : string) : list string :=
  match s with
  | EmptyString => [EmptyString]
  | String c s' =>
      if Ascii.eqb c "/"%char then EmptyString :: split s'
      else match split s' with
           | [] => [String c EmptyString]
           | e :: es => String c e :: es
           end
  end.

Definition IsAbs (p : string) : bool :=
  match p with
  | String c _ => Ascii.eqb c "/"%char
  | EmptyString => false
  end.

(** One element of the scan [Clean] makes, [out] being the elements kept
    so far, the last one first: an empty element and [.] are dropped;
    [..] removes the element before it, is dropped at the root, and is
    kept where a relative path has nothing left to remove. *)
Definition clean_step (rooted : bool) (out : list string) (e : string)
  : list string :=
  if decide (e = "") then out
  else if decide (e = ".") then out
  else if decide (e = "..") then
    match out with
    | top :: out' =>
        if decide (top = "..") then (if rooted then out else e :: out)
        else out'
    | [] => if rooted then out else [e]
    end
  else e :: out.

(** [filepath.Clean], with [/] as the separator. *)
Definition Clean (p : string) : string :=
  if decide (p = "") then "."
  else
    let out := rev (foldl (clean_step (IsAbs p)) [] (split p)) in
    if IsAbs p then "/" ++ Strings.Join out "/"
    else match out with
         | [] => "."
         | _ => Strings.Join out "/"
         end.

(** [filepath.Join] of two elements: empty elements are ignored, the
    rest joined by the separator and cleaned. *)
Definition Join (a b : string) : string :=
  if decide (a = "") then (if decide (b = "") then "" else Clean b)
  else Clean (a ++ "/" ++ b).

End filepath.

(** ** Errors *)

(** The Go [error] values the root command tells apart: viper's
    "no configuration file found" has a type of its own, which [initConfig]
    tests for; every other error only carries its message. *)
Inductive error :=
  | ConfigFileNotFoundError (name : string) (locations : list string)
  | ConfigParseError (file : string)
  | PathError (op path : string)
  | errorString (msg : string).

Definition Error (e : error) : string :=
  match e with
  | ConfigFileNotFoundError name locations =>
      "Config File " ++ name ++ " Not Found in " ++ Strings.Join locations " "
  | ConfigParseError file => "While parsing config: " ++ file
  | PathError op path => op ++ " " ++ path ++ ": no such file or directory"
  | errorString msg => msg
  end.

(** ** The flag registry: [pflag.FlagSet] *)

Module pflag.

(** [pflag.Flag], for a string-valued flag: [Value] is what
    [f.Value.String()] returns, [DefValue] the default as text, and
    [Changed] tells whether the flag was set. *)
Record Flag := mkFlag {
  Name : string;
  DefValue : string;
  Value : string;
  Changed : bool
}.

Global Instance Flag_eq_dec : EqDecision Flag.
Proof. solve_decision. Defined.

(** A flag set in the order [VisitAll] visits it.  The Go type keeps its
    flags in a map keyed by name; [Lookup] is that map's lookup. *)
Abbreviation FlagSet := (list Flag).

Fixpoint Lookup (fs : FlagSet) (name : string) : option Flag :=
  match fs with
  | [] => None
  | f :: fs' => if decide (Name f = name) then Some f else Lookup fs' name
  end.

(** [StringVarP]: a fresh flag holds its default and is not changed. *)
Definition StringVarP (name value : string) : Flag :=
  {| Name := name; DefValue := value; Value := value; Changed := false |}.

(** What [Set] does to the flag it finds: store the value, mark the flag
    as changed. *)
Definition assign (value : string) (f : Flag) : Flag :=
  {| Name := Name f; DefValue := DefValue f; Value := value; Changed := true |}.

(** Modelled from the spec: the [Set] method of a flag set belongs to the pflag
    library, which is not part of src/.  A write stores the new current
    value and marks the option as set (§3, §4.4 step 3); a name that is
    not registered is an error and leaves the registry alone. *)
Fixpoint FlagSet_Set (fs : FlagSet) (name value : string) : option FlagSet :=
  match fs with
  | [] => None
  | f :: fs' =>
      if decide (Name f = name) then Some (assign value f :: fs')
      else (f ::.) <$> FlagSet_Set fs' name value
  end.

End pflag.

Import pflag.

(** ** The configuration store: [viper] *)

Module viper.

Import Strings.

(** What the reader finds at a path: a document that decodes to
    key/value pairs (keys in the store's lower-case form), a document
    that does not parse, or a file that cannot be read. *)
Inductive File :=
  | Document (kv : gmap string string)
  | Malformed
  | Unreadable.

(** The fields of the global viper instance the root command touches.
    [pflags] binds a key to a flag of the command's flag set; the flag is
    held by reference, so the store always sees its current state.
    [supportedExts] is the package's [SupportedExts]: the file extensions
    a search tries, in the order it tries them. *)
Record t := mk {
  configFile : string;
  configPaths : list string;
  configName : string;
  configType : string;
  automaticEnvApplied : bool;
  envPrefix : string;
  envKeyReplacer : option Replacer;
  config : gmap string string;
  defaults : gmap string string;
  pflags : gmap string string;
  supportedExts : list string
}.

(** [SupportedExts] as the library declares it. *)
Definition SupportedExts : list string :=
  ["json"; "toml"; "yaml"; "yml"; "properties"; "props"; "prop"; "hcl";
   "dotenv"; "env"; "ini"].

Definition New : t :=
  {| configFile := ""; configPaths := []; configName := "config";
     configType := ""; automaticEnvApplied := false; envPrefix := "";
     envKeyReplacer := None; config := ∅; defaults := ∅; pflags := ∅;
     supportedExts := SupportedExts |}.

Definition AutomaticEnv (v : t) : t :=
  mk (configFile v) (configPaths v) (configName v) (configType v)
     true (envPrefix v) (envKeyReplacer v)
     (config v) (defaults v) (pflags v) (supportedExts v).

Definition SetEnvPrefix (p : string) (v : t) : t :=
  if decide (p = "") then v
  else mk (configFile v) (configPaths v) (configName v) (configType v)
          (automaticEnvApplied v) p (envKeyReplacer v)
          (config v) (defaults v) (pflags v) (supportedExts v).

Definition SetEnvKeyReplacer (r : Replacer) (v : t) : t :=
  mk (configFile v) (configPaths v) (configName v) (configType v)
     (automaticEnvApplied v) (envPrefix v) (Some r)
     (config v) (defaults v) (pflags v) (supportedExts v).

Definition with_configFile (f : string) (v : t) : t :=
  mk f (configPaths v) (configName v) (configType v)
     (automaticEnvApplied v) (envPrefix v) (envKeyReplacer v)
     (config v) (defaults v) (pflags v) (supportedExts v).

Definition SetConfigFile (f : string) (v : t) : t :=
  if decide (f = "") then v else with_configFile f v.

(** [absPathify] on an absolute path, which cleans it.  (A path that is
    not absolute is first resolved against the working directory or an
    environment variable; the properties of the default search below
    assume an absolute home directory.) *)
Definition absPathify (p : string) : string := filepath.Clean p.

(** [AddConfigPath]: the resolved path joins the search paths unless it
    is among them already. *)
Definition AddConfigPath (p : string) (v : t) : t :=
  if decide (p = "") then v
  else if decide (absPathify p ∈ configPaths v) then v
  else mk (configFile v) (configPaths v ++ [absPathify p])
          (configName v) (configType v)
          (automaticEnvApplied v) (envPrefix v) (envKeyReplacer v)
          (config v) (defaults v) (pflags v) (supportedExts v).

Definition SetConfigName (n : string) (v : t) : t :=
  if decide (n = "") then v
  else mk "" (configPaths v) n (configType v)
          (automaticEnvApplied v) (envPrefix v) (envKeyReplacer v)
          (config v) (defaults v) (pflags v) (supportedExts v).

Definition SetConfigType (ty : string) (v : t) : t :=
  if decide (ty = "") then v
  else mk (configFile v) (configPaths v) (configName v) ty
          (automaticEnvApplied v) (envPrefix v) (envKeyReplacer v)
          (config v) (defaults v) (pflags v) (supportedExts v).

Definition with_config (c : gmap string string) (v : t) : t :=
  mk (configFile v) (configPaths v) (configName v) (configType v)
     (automaticEnvApplied v) (envPrefix v) (envKeyReplacer v)
     c (defaults v) (pflags v) (supportedExts v).

Definition with_defaults (d : gmap string string) (v : t) : t :=
  mk (configFile v) (configPaths v) (configName v) (configType v)
     (automaticEnvApplied v) (envPrefix v) (envKeyReplacer v)
     (config v) d (pflags v) (supportedExts v).

(** [SetDefault]: keys are case-insensitive, stored in lower case. *)
Definition SetDefault (key value : string) (v : t) : t :=
  with_defaults (<[ToLower key := value]> (defaults v)) v.

Definition BindPFlag (key : string) (flag : Flag) (v : t) : t :=
  mk (configFile v) (configPaths v) (configName v) (configType v)
     (automaticEnvApplied v) (envPrefix v) (envKeyReplacer v)
     (config v) (defaults v) (<[ToLower key := Name flag]> (pflags v))
     (supportedExts v).

(** [BindPFlags]: every flag of the set is bound under its long name. *)
Definition BindPFlags (flags : FlagSet) (v : t) : t :=
  foldl (λ v f, BindPFlag (Name f) f v) v flags.

(** The environment variable a key is looked up as. *)
Definition mergeWithEnvPrefix (v : t) (key : string) : string :=
  if decide (envPrefix v = "") then ToUpper key
  else ToUpper (envPrefix v ++ "_" ++ key).

Definition envKey (v : t) (key : string) : string :=
  match envKeyReplacer v with
  | Some r => Replace r (mergeWithEnvPrefix v key)
  | None => mergeWithEnvPrefix v key
  end.

(** What the store takes from a variable of the environment: a
    variable that is empty counts as one that is not set ([AllowEmptyEnv]
    is off unless asked for, and the root command never asks). *)
Definition nonEmpty (o : option string) : option string :=
  match o with
  | Some val => if decide (val = "") then None else Some val
  | None => None
  end.

(** [getEnv], preceded by the test of [AutomaticEnv] its caller makes. *)
Definition getEnv (v : t) (environ : gmap string string) (key : string)
  : option string :=
  if automaticEnvApplied v then nonEmpty (environ !! envKey v key) else None.

(** Modelled from the spec: the store's lookup belongs to the viper
    library, which is not part of src/.  §4.4 step 2 and the comment
    above [initFlags] give its order: a flag set on the command line, then
    the environment variable of the key, then the configuration file, then
    the registered default (and, for a key with none, the value of the
    flag bound to it).  [environ] holds the variables that are set. *)
Definition find (v : t) (environ : gmap string string) (flags : FlagSet)
    (lcaseKey : string) : option string :=
  let bound := pflags v !! lcaseKey ≫= Lookup flags in
  match bound ≫= (λ f, if Changed f then Some (Value f) else None) with
  | Some val => Some val
  | None =>
    match getEnv v environ lcaseKey with
    | Some val => Some val
    | None =>
      match config v !! lcaseKey with
      | Some val => Some val
      | None =>
        match defaults v !! lcaseKey with
        | Some val => Some val
        | None => Value <$> bound
        end
      end
    end
  end.

(** [GetString]: the key in lower case, a missing value as the empty
    string. *)
Definition GetString (v : t) (environ : gmap string string)
    (flags : FlagSet) (key : string) : string :=
  default "" (find v environ flags (ToLower key)).

(** The files [searchInPath] looks for in directory [p], in its order:
    the configuration name with each supported extension, then, a type
    being set, the bare name. *)
Definition candidates (v : t) (p : string) : list string :=
  ((λ ext, filepath.Join p (configName v ++ "." ++ ext)) <$> supportedExts v)
  ++ (if decide (configType v = "") then []
      else [filepath.Join p (configName v)]).

(** The first of the files that exists. *)
Fixpoint firstExisting (files : gmap string File) (names : list string)
  : option string :=
  match names with
  | [] => None
  | n :: names' =>
      match files !! n with
      | Some _ => Some n
      | None => firstExisting files names'
      end
  end.

Definition searchInPath (v : t) (files : gmap string File) (p : string)
  : option string :=
  firstExisting files (candidates v p).

Fixpoint findConfigFile (v : t) (files : gmap string File)
    (paths : list string) : option string :=
  match paths with
  | [] => None
  | p :: paths' =>
      match searchInPath v files p with
      | Some f => Some f
      | None => findConfigFile v files paths'
      end
  end.

(** Modelled from the spec: reading the configuration file belongs to
    the viper library, which is not part of src/.  §4.2: an explicit
    path is used verbatim; otherwise the file is searched under the
    configured paths, name and type, and not finding one is the
    distinguished "not found" error.  A file that cannot be read or does
    not parse is any other error.  On success the decoded pairs become
    the file layer. *)
Definition ReadInConfig (v : t) (files : gmap string File)
  : t * option error :=
  let located :=
    if decide (configFile v = "") then
      match findConfigFile v files (configPaths v) with
      | Some f => inl f
      | None => inr (ConfigFileNotFoundError (configName v) (configPaths v))
      end
    else inl (configFile v) in
  match located with
  | inr e => (v, Some e)
  | inl filename =>
      let v := with_configFile filename v in
      match files !! filename with
      | None => (v, Some (PathError "open" filename))
      | Some Unreadable => (v, Some (errorString ("read " ++ filename)))
      | Some Malformed => (v, Some (ConfigParseError filename))
      | Some (Document kv) => (with_config kv v, None)
      end
  end.

Definition ConfigFileUsed (v : t) : string := configFile v.

End viper.

(** ** The logger: [logrus] *)

Module logger.

Inductive Level :=
  | PanicLevel | FatalLevel | ErrorLevel | WarnLevel
  | InfoLevel | DebugLevel | TraceLevel.

Global Instance Level_eq_dec : EqDecision Level.
Proof. solve_decision. Defined.

(** A call made to the logger: its level, its message and its fields
    ([WithField], [WithFields], [WithError]).  Whether the entry reaches
    the output depends on the level [SetLevel] configured; the log below
    keeps the calls. *)
Record Entry := mkEntry {
  e_level : Level;
  e_fields : gmap string string;
  e_msg : string
}.

Definition WithField (key value : string) (fields : gmap string string)
  : gmap string string := <[key := value]> fields.

Definition WithError (err : error) (fields : gmap string string)
  : gmap string string := <["error" := Error err]> fields.

(** [ParseLevel]: the level names, in any letter case. *)
Definition ParseLevel (lvl : string) : Level + error :=
  let l := Strings.ToLower lvl in
  if decide (l = "panic") then inl PanicLevel
  else if decide (l = "fatal") then inl FatalLevel
  else if decide (l = "error") then inl ErrorLevel
  else if decide (l = "warn") then inl WarnLevel
  else if decide (l = "warning") then inl WarnLevel
  else if decide (l = "info") then inl InfoLevel
  else if decide (l = "debug") then inl DebugLevel
  else if decide (l = "trace") then inl TraceLevel
  else inr (errorString ("not a valid logrus Level: " ++ lvl)).

End logger.

(** ** The process state and its monad *)

(** Everything the root command reads or changes: the flag set of the
    running command ([c.Flags()]), the global viper instance, the logger,
    and the process surroundings (environment, files, home directory,
    arguments).  [sets] keeps the calls made to the flag set's [Set], in
    order. *)
Record World := mkWorld {
  flags : FlagSet;
  store : viper.t;
  level : logger.Level;
  log : list logger.Entry;
  sets : list (string * string);
  environ : gmap string string;
  files : gmap string viper.File;
  home : string + error;
  Args : list string
}.

Definition with_flags (fs : FlagSet) (w : World) : World :=
  mkWorld fs (store w) (level w) (log w) (sets w)
          (environ w) (files w) (home w) (Args w).

Definition with_store (v : viper.t) (w : World) : World :=
  mkWorld (flags w) v (level w) (log w) (sets w)
          (environ w) (files w) (home w) (Args w).

Definition with_level (l : logger.Level) (w : World) : World :=
  mkWorld (flags w) (store w) l (log w) (sets w)
          (environ w) (files w) (home w) (Args w).

Definition with_log (es : list logger.Entry) (w : World) : World :=
  mkWorld (flags w) (store w) (level w) es (sets w)
          (environ w) (files w) (home w) (Args w).

Definition with_sets (ws : list (string * string)) (w : World) : World :=
  mkWorld (flags w) (store w) (level w) (log w) ws
          (environ w) (files w) (home w) (Args w).

(** A computation either returns, or ends the process with an exit
    status ([os.Exit], reached through the logger's [Fatal]). *)
Inductive Outcome (A : Type) :=
  | Return (a : A) (w : World)
  | Exit (code : Z) (w : World).
Arguments Return {A} a w.
Arguments Exit {A} code w.

Definition M (A : Type) : Type := World → Outcome A.

Definition ret {A} (a : A) : M A := λ w, Return a w.

Definition bind {A B} (m : M A) (k : A → M B) : M B :=
  λ w, match m w with
       | Return a w' => k a w'
       | Exit code w' => Exit code w'
       end.

Declare Scope go_scope.
Delimit Scope go_scope with go.
Notation "x <- m ;; k" := (bind m (λ x, k))
  (at level 100, m at next level, right associativity) : go_scope.
Notation "m ;;; k" := (bind m (λ _, k))
  (at level 100, right associativity) : go_scope.
Local Open Scope go_scope.

Definition get {A} (proj : World → A) : M A := λ w, Return (proj w) w.
Definition modify (f : World → World) : M unit := λ w, Return tt (f w).

Definition final {A} (o : Outcome A) : World :=
  match o with Return _ w => w | Exit _ w => w end.

(** *** Logger calls *)

Definition emit (l : logger.Level) (fields : gmap string string) (msg : string)
  : M unit :=
  modify (λ w, with_log (log w ++ [logger.mkEntry l fields msg]) w).

Definition logger_Debug := emit logger.DebugLevel.
Definition logger_Info := emit logger.InfoLevel.
Definition logger_Error := emit logger.ErrorLevel.

(** Modelled from the spec: the logger's [Fatal] belongs to the logrus
    library, which is not part of src/.  §6 and §7: a fatal condition is
    logged and terminates the process at once with a non-zero exit
    status. *)
Definition logger_Fatal {A} (fields : gmap string string) (msg : string) : M A :=
  λ w, Exit 1 (with_log (log w ++ [logger.mkEntry logger.FatalLevel fields msg]) w).

Definition logger_SetLevel (l : logger.Level) : M unit := modify (with_level l).

(** *** The flag set and the store, as the process sees them *)

(** [flags.Set(name, value)] on the command's flag set. *)
Definition flags_Set (name value : string) : M (option error) :=
  λ w,
    let w := with_sets (sets w ++ [(name, value)]) w in
    match FlagSet_Set (flags w) name value with
    | Some fs => Return None (with_flags fs w)
    | None => Return (Some (errorString ("no such flag -" ++ name))) w
    end.

(** [flags.VisitAll(fn)]: [fn] is called on every flag of the set, in the
    set's order.  The flags are visited by reference; their names and
    defaults never change, and [fn] reads a flag's current value and
    marker only where nothing has written to the set in between. *)
Fixpoint visit (fs : FlagSet) (fn : Flag → M unit) : M unit :=
  match fs with
  | [] => ret tt
  | f :: fs' => fn f ;;; visit fs' fn
  end.

Definition flags_VisitAll (fn : Flag → M unit) : M unit :=
  fs <- get flags ;; visit fs fn.

Definition viper_do (f : viper.t → viper.t) : M unit :=
  modify (λ w, with_store (f (store w)) w).

Definition viper_GetString (key : string) : M string :=
  λ w, Return (viper.GetString (store w) (environ w) (flags w) key) w.

Definition viper_ReadInConfig : M (option error) :=
  λ w, let '(v, err) := viper.ReadInConfig (store w) (files w) in
       Return err (with_store v w).

Definition viper_ConfigFileUsed : M string :=
  get (λ w, viper.ConfigFileUsed (store w)).

(** ** [cmd/root.go] *)

Definition configName : string := "config".
Definition configDir : string := ".falcoctl".

(** The directory the default search looks into, for a home directory,
    as the store keeps it. *)
Definition defaultConfigDir (home : string) : string :=
  viper.absPathify (filepath.Join home configDir).

(** The file of the default search with a given extension, and the
    default location of the configuration file, for a home directory. *)
Definition defaultConfigFileAs (home ext : string) : string :=
  filepath.Join (defaultConfigDir home) (configName ++ "." ++ ext).

Definition defaultConfigFile (home : string) : string :=
  defaultConfigFileAs home "yaml".

(** The options bound to the global flags [--config] and [--loglevel]. *)
Record ConfigOptions := mkConfigOptions {
  ConfigFile : string;
  LogLevel : string
}.

Section Root.

(** [ConfigOptions.Validate] is defined in another file of the package;
    it returns a Go slice of errors, [None] being the nil slice. *)
Variable Validate : ConfigOptions → option (list error).

Fixpoint range {A} (l : list A) (body : A → M unit) : M unit :=
  match l with
  | [] => ret tt
  | a :: l' => body a ;;; range l' body
  end.

Definition validateConfig (configOptions : ConfigOptions) : M unit :=
  match Validate configOptions with
  | Some errs =>
      range errs (λ err,
        logger_Error (logger.WithError err ∅) "error validating config options") ;;;
      logger_Fatal ∅ "exiting for validation errors"
  | None => ret tt
  end.

(** [initEnv] enables automatic ENV variables lookup. *)
Definition initEnv : M unit :=
  viper_do viper.AutomaticEnv ;;;
  viper_do (viper.SetEnvPrefix "falcoctl") ;;;
  viper_do (viper.SetEnvKeyReplacer (Strings.NewReplacer "-" "_")).

(** [initLogger] configures the logger. *)
Definition initLogger (logLevel : string) : M unit :=
  match logger.ParseLevel logLevel with
  | inr err => logger_Fatal ∅ (Error err)
  | inl lvl => logger_SetLevel lvl
  end.

(** [initConfig] reads in the config file, if any.  Default location is
    ~/.falcoctl/config.yaml. *)
Definition initConfig (configFile : string) : M unit :=
  (if decide (configFile ≠ "") then
     viper_do (viper.SetConfigFile configFile)
   else
     h <- get home ;;
     match h with
     | inr err =>
         logger_Fatal (logger.WithError err ∅) "error getting the home directory"
     | inl home =>
         viper_do (viper.AddConfigPath (filepath.Join home configDir)) ;;;
         viper_do (viper.SetConfigName configName) ;;;
         viper_do (viper.SetConfigType "yaml")
     end) ;;;
  err <- viper_ReadInConfig ;;
  match err with
  | None =>
      used <- viper_ConfigFileUsed ;;
      logger_Info (logger.WithField "file" used ∅) "using config file"
  | Some (ConfigFileNotFoundError _ _) =>
      logger_Debug ∅ "running without a configuration file"
  | Some err =>
      used <- viper_ConfigFileUsed ;;
      logger_Fatal (logger.WithError err (logger.WithField "file" used ∅))
                   "error running with config file"
  end.

(** Indexing a Go [map[string]bool]: a missing key reads as [false]. *)
Definition index (m : gmap string bool) (k : string) : bool :=
  default false (m !! k).

(** The function [initFlags] hands to [VisitAll]. *)
Definition initFlag (exclude : gmap string bool) (f : Flag) : M unit :=
  if index exclude (Name f) then ret tt
  else
    viper_do (viper.SetDefault (Name f) (DefValue f)) ;;;
    v <- viper_GetString (Name f) ;;
    if decide (v ≠ DefValue f) then
      flags_Set (Name f) v ;;; ret tt
    else ret tt.

(** [initFlags] binds a full flag set to the configuration, using each
    flag's long name as the config key. *)
Definition initFlags (exclude : gmap string bool) : M unit :=
  fs <- get flags ;;
  viper_do (viper.BindPFlags fs) ;;;
  flags_VisitAll (initFlag exclude).

(** The fields [debugFlags] collects: every changed flag with its
    value. *)
Definition changedFields (fs : FlagSet) : gmap string string :=
  foldl (λ fields f, if Changed f then <[Name f := Value f]> fields else fields)
        ∅ fs.

Definition debugFlags : M unit :=
  fs <- get flags ;;
  logger_Debug (changedFields fs) "running with options".

(** The flags kept out of ENV and config file binding. *)
Definition exclude : gmap string bool :=
  {[ "config" := true; "loglevel" := true; "help" := true;
     "registryurl" := false ]}.

(** [PersistentPreRun] of the root command.  [configOptions] is the
    variable the closure captures; at this stage it is bound to command
    line flags only. *)
Definition PersistentPreRun (configOptions : ConfigOptions) : M unit :=
  validateConfig configOptions ;;;
  initLogger (LogLevel configOptions) ;;;
  args <- get Args ;;
  logger_Debug ∅ ("running with args: " ++ Strings.Join args " ") ;;;
  initConfig (ConfigFile configOptions) ;;;
  initEnv ;;;
  initFlags exclude ;;;
  debugFlags.

End Root.

(** [New]: the two global flags the root command registers, each with the
    value of its option as default. *)
Definition New_flags (configOptions : ConfigOptions) : FlagSet :=
  [ StringVarP "config" (ConfigFile configOptions);
    StringVarP "loglevel" (LogLevel configOptions) ].

(** ** The signal-aware context: [WithSignals] *)

Module Signals.

(** The two signals [signal.Notify] relays to [sigCh]. *)
Inductive Signal := SIGINT | SIGTERM.

Inductive CtxState := Active | Cancelled.

(** Where the goroutine stands: blocked in [select], past the receive
    [s := <-sigCh], at [return] with the deferred [cancel] still to run, or
    finished. *)
Inductive Task :=
  | Selecting
  | Received (s : Signal)
  | Returning
  | Exited.

(** The parent context, the derived context [WithSignals] returns, the
    goroutine, the channel [sigCh] (capacity one) and what was logged. *)
Record State := mkState {
  parent : CtxState;
  ctx : CtxState;
  task : Task;
  sigCh : option Signal;
  log : list logger.Entry
}.

(** [context.WithCancel(ctx)], the channel and the goroutine, all fresh;
    the derived context starts in the state of its parent. *)
Definition WithSignals (p : CtxState) : State := mkState p p Selecting None [].

(** The [switch] on the received signal. *)
Definition received (s : Signal) : logger.Entry :=
  match s with
  | SIGINT => logger.mkEntry logger.InfoLevel ∅ "received SIGINT"
  | SIGTERM => logger.mkEntry logger.InfoLevel ∅ "received SIGTERM"
  end.

(** What can happen: the owner of the parent context cancels it; the
    runtime relays a signal; the [select] takes one of its two cases; the
    [switch] logs; the deferred [cancel] runs and the goroutine ends. *)
Inductive Event :=
  | ParentCancel
  | Notify (s : Signal)
  | CaseDone
  | CaseSignal
  | Switch
  | DeferredCancel.

(** One step; [None] when the event cannot happen in the state.  A
    cancelled parent cancels the derived context with it.  The runtime
    does not block on a full channel: the signal is dropped.  [select]
    takes a case that is ready, either one when both are. *)
Definition step (e : Event) (st : State) : option State :=
  match e with
  | ParentCancel =>
      Some (mkState Cancelled Cancelled (task st) (sigCh st) (log st))
  | Notify s =>
      match sigCh st with
      | None => Some (mkState (parent st) (ctx st) (task st) (Some s) (log st))
      | Some _ => Some st
      end
  | CaseDone =>
      match task st, ctx st with
      | Selecting, Cancelled =>
          Some (mkState (parent st) (ctx st) Returning (sigCh st) (log st))
      | _, _ => None
      end
  | CaseSignal =>
      match task st, sigCh st with
      | Selecting, Some s =>
          Some (mkState (parent st) (ctx st) (Received s) None (log st))
      | _, _ => None
      end
  | Switch =>
      match task st with
      | Received s =>
          Some (mkState (parent st) (ctx st) Returning (sigCh st)
                        (log st ++ [received s]))
      | _ => None
      end
  | DeferredCancel =>
      match task st with
      | Returning =>
          Some (mkState (parent st) Cancelled Exited (sigCh st) (log st))
      | _ => None
      end
  end.

Fixpoint run (tr : list Event) (st : State) : option State :=
  match tr with
  | [] => Some st
  | e :: tr' => step e st ≫= run tr'
  end.

(** Whether a step takes the derived context from Active to Cancelled. *)
Definition cancels (st st' : State) : bool :=
  match ctx st, ctx st' with
  | Active, Cancelled => true
  | _, _ => false
  end.

(** How often that happens along a run. *)
Fixpoint transitions (tr : list Event) (st : State) : nat :=
  match tr with
  | [] => 0
  | e :: tr' =>
      match step e st with
      | Some st' => (if cancels st st' then 1 else 0) + transitions tr' st'
      | None => 0
      end
  end.

(** The events that are not steps of the goroutine. *)
Definition external (e : Event) : Prop :=
  match e with
  | ParentCancel | Notify _ => True
  | _ => False
  end.

(** What holds in every state the system reaches. *)
Definition Inv (st : State) : Prop :=
  (parent st = Cancelled → ctx st = Cancelled)
  ∧ match task st with
    | Selecting | Received _ => log st = []
    | Returning =>
        (ctx st = Cancelled ∧ log st = []) ∨ ∃ s, log st = [received s]
    | Exited => ctx st = Cancelled ∧ (List.length (log st) ≤ 1)%nat
    end.

(** The signal scenario: an interrupt arrives, the goroutine takes it,
    logs it and cancels the context; a termination signal follows. *)
Definition scenario : list Event :=
  [Notify SIGINT; CaseSignal; Switch; DeferredCancel; Notify SIGTERM].

Definition afterScenario : State :=
  mkState Active Cancelled Exited (Some SIGTERM) [received SIGINT].

(** [Execute]: the context handed to the root command is
    [WithSignals(context.Background())]; the background context is never
    cancelled. *)
Definition Execute : State := WithSignals Active.

(** The steps of the goroutine, and how many of them a run holds. *)
Definition internal (e : Event) : bool :=
  match e with
  | ParentCancel | Notify _ => false
  | _ => true
  end.

Definition steps_taken (tr : list Event) : nat :=
  List.length (List.filter internal tr).

(** What the goroutine still has before it: three statements at most. *)
Definition rank (t : Task) : nat :=
  match t with
  | Selecting => 3
  | Received _ => 2
  | Returning => 1
  | Exited => 0
  end.

(** The first signal the runtime relays in a run. *)
Fixpoint first_signal (tr : list Event) : option Signal :=
  match tr with
  | [] => None
  | Notify s :: _ => Some s
  | _ :: tr' => first_signal tr'
  end.

(** The signal the goroutine is bound to log, if it logs one: the one it
    holds, else the one in the channel, else the first to come. *)
Definition awaited (st : State) (tr : list Event) : option Signal :=
  match task st with
  | Selecting =>
      match sigCh st with
      | Some c => Some c
      | None => first_signal tr
      end
  | Received c => Some c
  | _ => None
  end.

(** What holds in every state reached while the parent stays alive. *)
Definition Inv_alive (st : State) : Prop :=
  parent st = Active
  ∧ match task st with
    | Selecting | Received _ => ctx st = Active ∧ log st = []
    | Returning => ctx st = Active ∧ ∃ s, log st = [received s]
    | Exited => ctx st = Cancelled ∧ ∃ s, log st = [received s]
    end.

End Signals.

(** A sample invocation: [falcoctl --namespace prod], with three variables
    in the environment and three entries loaded from the configuration
    file. *)
Module Demo.

Definition namespace : Flag := mkFlag "namespace" "falco" "prod" true.
Definition loglevel : Flag := StringVarP "loglevel" "info".
Definition registry_url : Flag := StringVarP "registry-url" "".
Definition timeout : Flag := StringVarP "timeout" "30".

Definition fs : FlagSet :=
  [ StringVarP "config" ""; StringVarP "help" "false"; loglevel;
    namespace; registry_url; timeout ].

Definition file : gmap string string :=
  {[ "timeout" := "60"; "registry-url" := "https://file.test";
     "loglevel" := "debug" ]}.

Definition env : gmap string string :=
  {[ "FALCOCTL_REGISTRY_URL" := "https://example.test";
     "FALCOCTL_LOGLEVEL" := "trace";
     "FALCOCTL_NAMESPACE" := "staging" ]}.

Definition w : World :=
  mkWorld fs (viper.with_config file viper.New) logger.InfoLevel [] []
          env ∅ (inl "/home/u") ["falcoctl"; "--namespace"; "prod"].

(** The same invocation as the process starts: a fresh store, the
    entries still in the file at the default location. *)
Definition w_start : World :=
  mkWorld fs viper.New logger.InfoLevel [] [] env
          {[ "/home/u/.falcoctl/config.yaml" := viper.Document file ]}
          (inl "/home/u") ["falcoctl"; "--namespace"; "prod"].

Definition configOptions : ConfigOptions := mkConfigOptions "" "info".

(** The root command run on its own, as [falcoctl --loglevel debug]: the
    registry holds the two flags of [New]. *)
Definition w_root : World :=
  with_flags (default [] (FlagSet_Set (New_flags configOptions)
                            "loglevel" "debug")) w.

(** A stand-in for [ConfigOptions.Validate]: the path must not be a
    directory, the level must be one the logger knows. *)
Definition Validate (co : ConfigOptions) : option (list error) :=
  let e1 := if decide (ConfigFile co = "/")
            then [errorString "ConfigFile must be a file path"] else [] in
  let e2 := match logger.ParseLevel (LogLevel co) with
            | inl _ => []
            | inr _ => [errorString "LogLevel must be a log level"]
            end in
  match (e1 ++ e2)%list with
  | [] => None
  | errs => Some errs
  end.

Definition badOptions : ConfigOptions := mkConfigOptions "/" "loud".

(** Two more stand-ins: one that returns an empty slice that is not nil,
    one that never objects; and options with an unknown log level. *)
Definition emptySlice (co : ConfigOptions) : option (list error) := Some [].
Definition noErrors (co : ConfigOptions) : option (list error) := None.
Definition loudOptions : ConfigOptions := mkConfigOptions "" "loud".

Definition badErrors : list error :=
  [errorString "ConfigFile must be a file path";
   errorString "LogLevel must be a log level"].

(** The same invocation where the home directory cannot be found. *)
Definition w_homeless : World :=
  mkWorld fs viper.New logger.InfoLevel [] [] env
          {[ "/etc/falcoctl.yaml" := viper.Document file ]}
          (inr (errorString "$HOME is not defined"))
          ["falcoctl"; "--namespace"; "prod"].

(** The same invocation with a file that does not parse at the default
    location and at [/etc/falcoctl.yaml]. *)
Definition w_malformed : World :=
  mkWorld fs viper.New logger.InfoLevel [] [] env
          {[ "/home/u/.falcoctl/config.yaml" := viper.Malformed;
             "/etc/falcoctl.yaml" := viper.Malformed;
             "/etc/shadow.yaml" := viper.Unreadable ]}
          (inl "/home/u") ["falcoctl"].

(** The extensions the search tries after [yaml]. *)
Definition laterExts : list string :=
  ["yml"; "properties"; "props"; "prop"; "hcl"; "dotenv"; "env"; "ini"].




End Demo.

(** * Specification *)

Local Open Scope list_scope.

Section Specification.

Import Strings viper.
Implicit Types (w : World) (v : viper.t) (fs : FlagSet) (f : Flag).
Implicit Types (env cfg : gmap string string) (ex : gmap string bool).

(** The registry is well formed when no two flags share a name, also up
    to letter case (the store's keys are case-insensitive), and a flag
    that was never set holds its default. *)
Definition distinct_keys fs : Prop :=
  NoDup ((λ f, Strings.ToLower (Name f)) <$> fs).

Definition unset_is_default fs : Prop :=
  Forall (λ f, Changed f = false → Value f = DefValue f) fs.

Definition wf_registry fs : Prop := distinct_keys fs ∧ unset_is_default fs.

Global Instance wf_registry_dec fs : Decision (wf_registry fs).
Proof. unfold wf_registry, distinct_keys, unset_is_default. apply _. Defined.

(** The names of the registry are ASCII: the domain on which the case
    mapping of the model is the program's. *)
Definition ascii_names fs : Prop :=
  Forall (λ f, Strings.is_ascii (Name f) = true) fs.

Global Instance ascii_names_dec fs : Decision (ascii_names fs).
Proof. unfold ascii_names. apply _. Defined.

(** The value the layers below the command line give a flag. *)
Definition resolved v env f : string :=
  if Changed f then Value f
  else match getEnv v env (ToLower (Name f)) with
       | Some val => val
       | None => default (DefValue f) (config v !! ToLower (Name f))
       end.

(** What one visit of [initFlags] does to the flag it visits, and the
    write it makes. *)
Definition resolve1 ex v env f : Flag :=
  if index ex (Name f) then f
  else if decide (resolved v env f ≠ DefValue f)
       then assign (resolved v env f) f else f.

Definition writes1 ex v env f
  : list (string * string) :=
  if index ex (Name f) then []
  else if decide (resolved v env f ≠ DefValue f)
       then [(Name f, resolved v env f)] else [].

(** The part of the world the pass leaves alone. *)
Definition frame w w' : Prop :=
  level w' = level w ∧ log w' = log w ∧ environ w' = environ w
  ∧ files w' = files w ∧ home w' = home w ∧ Args w' = Args w
  ∧ store w' = with_defaults (defaults (store w')) (store w).

Definition dash : Replacer := NewReplacer "-" "_".

(** The environment variable of an option: its name with every dash as
    an underscore, in upper case, behind the application prefix. *)
Definition envVar (name : string) : string :=
  ("FALCOCTL_" ++ ToUpper (Replace dash name))%string.

(** The state [initEnv] leaves the store in. *)
Definition env_bound (v : viper.t) : Prop :=
  automaticEnvApplied v = true ∧ envPrefix v = "falcoctl"
  ∧ envKeyReplacer v = Some dash.

(** The precedence order, highest first: the command line, the
    environment, the configuration file, the default.  The environment
    counts when the variable is set to a value that is not empty. *)
Definition precedence (cfg env : gmap string string) (f : Flag) : string :=
  if Changed f then Value f
  else match nonEmpty (env !! envVar (Name f)) with
       | Some val => val
       | None =>
           match cfg !! ToLower (Name f) with
           | Some val => val
           | None => DefValue f
           end
       end.

(** The flag a visit leaves behind, in terms of the precedence order. *)
Definition settle ex cfg env f : Flag :=
  if index ex (Name f) then f
  else if decide (precedence cfg env f ≠ DefValue f)
       then assign (precedence cfg env f) f else f.

Definition rewrites ex cfg env f : list (string * string) :=
  if index ex (Name f) then []
  else if decide (precedence cfg env f ≠ DefValue f)
       then [(Name f, precedence cfg env f)] else [].

(** The sources the pass reads are the same before and after it. *)
Definition same_sources w w' : Prop :=
  environ w' = environ w ∧ config (store w') = config (store w)
  ∧ env_bound (store w') ∧ log w' = log w ∧ level w' = level w.

End Specification.



(** The last clause of the claim as written: from the moment the derived
    context is cancelled, whatever follows is no step of the goroutine
    and adds nothing to the log. *)
Definition idle_once_cancelled : Prop :=
  ∀ tr st tr' st',
    Signals.run tr (Signals.WithSignals Signals.Active) = Some st →
    Signals.ctx st = Signals.Cancelled →
    Signals.run tr' st = Some st' →
    Forall Signals.external tr' ∧ Signals.log st' = Signals.log st.

(** The run that shows otherwise: the parent is cancelled, then an
    interrupt arrives before the goroutine is scheduled, and its [select]
    takes the signal. *)
Definition parentFirst : list Signals.Event := [Signals.ParentCancel].

Definition thenSignal : list Signals.Event :=
  [Signals.Notify Signals.SIGINT; Signals.CaseSignal; Signals.Switch;
   Signals.DeferredCancel].



Definition validationEntry (err : error) : logger.Entry :=
  logger.mkEntry logger.ErrorLevel (logger.WithError err ∅)
                 "error validating config options".

(** The store after the three settings of the default branch. *)
Definition defaultSearch (h : string) (v : viper.t) : viper.t :=
  viper.SetConfigType "yaml"
    (viper.SetConfigName configName
       (viper.AddConfigPath (filepath.Join h configDir) v)).

(** The files the default search looks for under a home directory, in
    its order: [config] with each supported extension, then the bare
    name (the type being set to yaml). *)
Definition defaultCandidates (exts : list string) (h : string) : list string :=
  (defaultConfigFileAs h <$> exts)
  ++ [filepath.Join (defaultConfigDir h) configName].

Definition absent (files : gmap string viper.File) (name : string) : Prop :=
  files !! name = None.

Global Instance absent_dec files name : Decision (absent files name).
Proof.
  unfold absent. destruct (files !! name); [right; discriminate | left; reflexivity].
Defined.

Definition fatal (w : World) : Prop :=
  ∃ e, last (log w) = Some e ∧ logger.e_level e = logger.FatalLevel.

(** What a pass may do to the registry: the flags keep their order, names
    and defaults; a flag is left as it is or comes out marked as changed. *)
Definition same_shape (fs fs' : FlagSet) : Prop :=
  Forall2 (λ f f', Name f' = Name f ∧ DefValue f' = DefValue f
                   ∧ (f' = f ∨ Changed f' = true)) fs fs'.

(** The surroundings, the logger and the file layer of the store. *)
Definition untouched (w w' : World) : Prop :=
  level w' = level w ∧ log w' = log w ∧ environ w' = environ w
  ∧ files w' = files w ∧ home w' = home w ∧ Args w' = Args w
  ∧ viper.config (store w') = viper.config (store w).

(** A stage of [PersistentPreRun] that leaves the registry alone and ends
    the process, if it does, through the logger's [Fatal]. *)
Definition guarded {A} (m : M A) : Prop :=
  ∀ w, match m w with
       | Return _ w' => flags w' = flags w ∧ sets w' = sets w
       | Exit code w' =>
           code = 1%Z ∧ fatal w' ∧ flags w' = flags w ∧ sets w' = sets w
       end.

(** A computation whose exits, if any, are guarded. *)
Definition exits_guarded {A} (m : M A) : Prop :=
  ∀ w code w', m w = Exit code w' →
    code = 1%Z ∧ fatal w' ∧ flags w' = flags w ∧ sets w' = sets w.

(** The entries [PersistentPreRun] logs on its way. *)
Definition argsEntry (w : World) : logger.Entry :=
  logger.mkEntry logger.DebugLevel ∅
    ("running with args: " ++ Strings.Join (Args w) " ")%string.

Definition optionsEntry (fs : FlagSet) : logger.Entry :=
  logger.mkEntry logger.DebugLevel (changedFields fs) "running with options".

(** * Properties *)

(** Closes a decidable goal about a concrete world by evaluation. *)
Ltac by_evaluation := apply (bool_decide_unpack _); vm_compute; exact I.

(** The sample invocation, from start to end. *)
Example PersistentPreRun_demo :
  ∃ w', PersistentPreRun Demo.Validate Demo.configOptions Demo.w_start
        = Return tt w'
    ∧ flags w' = [ StringVarP "config" ""; StringVarP "help" "false";
                   Demo.loglevel; Demo.namespace;
                   mkFlag "registry-url" "" "https://example.test" true;
                   mkFlag "timeout" "30" "60" true ]
    ∧ sets w' = [ ("namespace", "prod");
                  ("registry-url", "https://example.test");
                  ("timeout", "60") ]
    ∧ logger.e_msg <$> log w'
      = [ "running with args: falcoctl --namespace prod";
          "using config file"; "running with options" ].
Proof. eexists. split; [vm_compute; reflexivity|]. vm_compute. done. Qed.

(** ** Strings *)

Section StringFacts.

Import Strings.
Local Open Scope string_scope.

Lemma map_string_app f s t :
  map_string f (s ++ t) = map_string f s ++ map_string f t.
Proof. induction s as [|c s IH]; simpl; [done | by rewrite IH]. Qed.

Lemma map_string_compose f g s :
  map_string f (map_string g s) = map_string (λ c, f (g c)) s.
Proof. induction s as [|c s IH]; simpl; [done | by rewrite IH]. Qed.

Lemma map_string_ext f g s :
  (∀ c, f c = g c) → map_string f s = map_string g s.
Proof. intros E. induction s as [|c s IH]; simpl; [done | by rewrite E, IH]. Qed.

Lemma upper_lower_ascii c : upper_ascii (lower_ascii c) = upper_ascii c.
Proof. by destruct c as [[] [] [] [] [] [] [] []]. Qed.

Lemma ToUpper_ToLower s : ToUpper (ToLower s) = ToUpper s.
Proof.
  unfold ToUpper, ToLower. rewrite map_string_compose.
  apply map_string_ext, upper_lower_ascii.
Qed.

(** The dash-to-underscore replacer commutes with upper-casing: neither
    byte is a letter. *)
Lemma dash_upper_ascii c :
  replace_ascii (NewReplacer "-" "_") (upper_ascii c)
  = upper_ascii (replace_ascii (NewReplacer "-" "_") c).
Proof. by destruct c as [[] [] [] [] [] [] [] []]. Qed.

Lemma Replace_dash_ToUpper s :
  Replace (NewReplacer "-" "_") (ToUpper s)
  = ToUpper (Replace (NewReplacer "-" "_") s).
Proof.
  unfold Replace, ToUpper. rewrite !map_string_compose.
  apply map_string_ext, dash_upper_ascii.
Qed.

End StringFacts.

(** ** The registry *)

Section Registry.

Implicit Types (fs pre post : FlagSet) (f : Flag).

Lemma Lookup_Some fs name f : Lookup fs name = Some f → f ∈ fs ∧ Name f = name.
Proof.
  induction fs as [|g fs IH]; simpl; [done|].
  case_decide as E.
  - intros [= ->]. split; [left | done].
  - intros H. destruct (IH H) as [? ?]. split; [by right | done].
Qed.

Lemma Lookup_app_r pre post f :
  Name f ∉ Name <$> pre → Lookup (pre ++ f :: post) (Name f) = Some f.
Proof.
  induction pre as [|g pre IH]; simpl; intros Hn.
  - by rewrite decide_True.
  - apply not_elem_of_cons in Hn as [Hg Hn].
    rewrite decide_False by done. by apply IH.
Qed.

Lemma Lookup_elem_of fs f :
  NoDup (Name <$> fs) → f ∈ fs → Lookup fs (Name f) = Some f.
Proof.
  intros Hnd Hf. apply list_elem_of_split in Hf as (pre & post & ->).
  apply Lookup_app_r. rewrite fmap_app, fmap_cons in Hnd.
  apply NoDup_app in Hnd as (_ & Hd & _).
  intros Hin. apply (Hd _ Hin). left.
Qed.

Lemma FlagSet_Set_app_r pre post f value :
  Name f ∉ Name <$> pre →
  FlagSet_Set (pre ++ f :: post) (Name f) value
  = Some (pre ++ assign value f :: post).
Proof.
  induction pre as [|g pre IH]; simpl; intros Hn.
  - by rewrite decide_True.
  - apply not_elem_of_cons in Hn as [Hg Hn].
    rewrite decide_False by done. by rewrite IH.
Qed.

Lemma FlagSet_Set_Lookup fs name value f :
  Lookup fs name = Some f →
  ∃ fs', FlagSet_Set fs name value = Some fs'
    ∧ Lookup fs' name = Some (assign value f)
    ∧ ∀ other, other ≠ name → Lookup fs' other = Lookup fs other.
Proof.
  induction fs as [|g fs IH]; simpl; [done|].
  case_decide as E.
  - intros [= ->]. eexists. split; [done|]. simpl. split.
    + by rewrite decide_True.
    + intros other Ho. rewrite !decide_False by congruence. done.
  - intros H. destruct (IH H) as (fs' & -> & Hl & Ho). simpl.
    eexists. split; [done|]. simpl. split.
    + by rewrite decide_False.
    + intros other Hne. case_decide; [done | by apply Ho].
Qed.

Lemma distinct_keys_names fs : distinct_keys fs → NoDup (Name <$> fs).
Proof.
  unfold distinct_keys. intros H.
  rewrite (list_fmap_compose Name Strings.ToLower) in H.
  by apply NoDup_fmap_1 in H.
Qed.

Lemma unset_is_default_elem fs f :
  unset_is_default fs → f ∈ fs → Changed f = false → Value f = DefValue f.
Proof. unfold unset_is_default. rewrite Forall_forall. intros H. apply H. Qed.

(** Registration establishes the second part, and a write keeps it. *)
Lemma unset_is_default_StringVarP (l : list (string * string)) :
  unset_is_default ((λ '(n, d), StringVarP n d) <$> l).
Proof. apply Forall_fmap, Forall_forall. by intros [n d] _. Qed.

Lemma unset_is_default_Set fs fs' name value :
  unset_is_default fs → FlagSet_Set fs name value = Some fs' →
  unset_is_default fs'.
Proof.
  unfold unset_is_default.
  revert fs'. induction fs as [|g fs IH]; simpl; intros fs' Hw; [done|].
  apply Forall_cons in Hw as [Hg Hw].
  case_decide as E.
  - intros [= <-]. by apply Forall_cons.
  - destruct (FlagSet_Set fs name value) as [fs1|] eqn:Hs; simpl; [|done].
    intros [= <-]. apply Forall_cons. split; [done | by apply IH].
Qed.

(** Mapping a function that keeps names over a registry. *)
Lemma Lookup_fmap (h : Flag → Flag) fs f :
  (∀ g, Name (h g) = Name g) → NoDup (Name <$> fs) → f ∈ fs →
  Lookup (h <$> fs) (Name f) = Some (h f).
Proof.
  intros Hh Hnd Hf. rewrite <- (Hh f). apply Lookup_elem_of.
  - rewrite <- list_fmap_compose.
    erewrite list_fmap_ext; [exact Hnd|].
    intros _ g _. apply Hh.
  - apply list_elem_of_fmap. by exists f.
Qed.

End Registry.

(** ** The store *)

Section Store.

Import Strings viper.
Implicit Types (v : viper.t) (env : gmap string string) (fs : FlagSet) (f : Flag).

Lemma resolved_with_defaults d v env f :
  resolved (with_defaults d v) env f = resolved v env f.
Proof. done. Qed.

(** Once the flag is bound and its default registered, [GetString]
    returns the resolved value. *)
Lemma GetString_resolved v env fs f :
  pflags v !! ToLower (Name f) = Some (Name f) →
  Lookup fs (Name f) = Some f →
  defaults v !! ToLower (Name f) = Some (DefValue f) →
  GetString v env fs (Name f) = resolved v env f.
Proof.
  intros Hb Hl Hd. unfold GetString, find, resolved.
  rewrite Hb. simpl. rewrite Hl. simpl.
  destruct (Changed f); [done|].
  destruct (getEnv v env _); [done|].
  destruct (config v !! _); [done|].
  by rewrite Hd.
Qed.

Lemma BindPFlags_snoc fs f v :
  BindPFlags (fs ++ [f]) v = BindPFlag (Name f) f (BindPFlags fs v).
Proof. unfold BindPFlags. by rewrite foldl_app. Qed.

(** After [BindPFlags], every flag is bound under its own key. *)
Lemma BindPFlags_bound fs v f :
  distinct_keys fs → f ∈ fs →
  pflags (BindPFlags fs v) !! ToLower (Name f) = Some (Name f).
Proof.
  induction fs as [|g fs IH] using rev_ind; intros Hnd Hf.
  - by apply elem_of_nil in Hf.
  - rewrite BindPFlags_snoc. simpl.
    unfold distinct_keys in Hnd. rewrite fmap_app in Hnd. simpl in Hnd.
    apply NoDup_app in Hnd as (Hfs & Hd & _).
    apply elem_of_app in Hf as [Hf | Hf].
    + rewrite lookup_insert_ne; [by apply IH|].
      intros E. apply (Hd (ToLower (Name f))).
      * apply list_elem_of_fmap. by exists f.
      * rewrite E. left.
    + apply list_elem_of_singleton in Hf as ->. by rewrite lookup_insert_eq.
Qed.

Lemma BindPFlags_layers fs v :
  automaticEnvApplied (BindPFlags fs v) = automaticEnvApplied v
  ∧ envPrefix (BindPFlags fs v) = envPrefix v
  ∧ envKeyReplacer (BindPFlags fs v) = envKeyReplacer v
  ∧ config (BindPFlags fs v) = config v.
Proof.
  induction fs as [|g fs IH] using rev_ind; [done|].
  rewrite BindPFlags_snoc. simpl. done.
Qed.

Lemma resolved_BindPFlags fs v env f :
  resolved (BindPFlags fs v) env f = resolved v env f.
Proof.
  destruct (BindPFlags_layers fs v) as (Ha & Hp & Hr & Hc).
  unfold resolved, getEnv, envKey, mergeWithEnvPrefix.
  by rewrite Ha, Hp, Hr, Hc.
Qed.

End Store.

(** ** The resolution pass *)

Section Resolution.

Import Strings viper.
Implicit Types (w : World) (fs pre post : FlagSet) (f : Flag).
Variable ex : gmap string bool.

Lemma resolve1_Name v env f : Name (resolve1 ex v env f) = Name f.
Proof. unfold resolve1. by repeat case_match. Qed.

Lemma frame_refl w : frame w w.
Proof. repeat split. by destruct (store w). Qed.

Lemma frame_trans w1 w2 w3 : frame w1 w2 → frame w2 w3 → frame w1 w3.
Proof.
  intros (?&?&?&?&?&?&E1) (?&?&?&?&?&?&E2).
  repeat split; try congruence. rewrite E2 at 1. rewrite E1. done.
Qed.

Lemma frame_resolved w w' f :
  frame w w' → resolved (store w') (environ w') f = resolved (store w) (environ w) f.
Proof. intros (_&_&->&_&_&_&->). apply resolved_with_defaults. Qed.

Lemma frame_pflags w w' : frame w w' → pflags (store w') = pflags (store w).
Proof. by intros (_&_&_&_&_&_&->). Qed.

Lemma resolve1_frame w w' f :
  frame w w' →
  resolve1 ex (store w') (environ w') f = resolve1 ex (store w) (environ w) f.
Proof. intros H. unfold resolve1. by rewrite (frame_resolved w w'). Qed.

Lemma writes1_frame w w' f :
  frame w w' →
  writes1 ex (store w') (environ w') f = writes1 ex (store w) (environ w) f.
Proof. intros H. unfold writes1. by rewrite (frame_resolved w w'). Qed.

(** One visit: the flag visited is still as the iteration found it. *)
Lemma initFlag_step pre post f w :
  flags w = pre ++ f :: post →
  Name f ∉ Name <$> pre →
  pflags (store w) !! ToLower (Name f) = Some (Name f) →
  ∃ w', initFlag ex f w = Return tt w'
    ∧ flags w' = pre ++ resolve1 ex (store w) (environ w) f :: post
    ∧ sets w' = sets w ++ writes1 ex (store w) (environ w) f
    ∧ frame w w'.
Proof.
  intros Hfs Hnf Hb. unfold initFlag, resolve1, writes1.
  destruct (index ex (Name f)) eqn:Hex.
  { exists w. rewrite app_nil_r. repeat split; try done. by destruct (store w). }
  set (w1 := with_store (SetDefault (Name f) (DefValue f) (store w)) w).
  assert (Hget : GetString (store w1) (environ w1) (flags w1) (Name f)
                 = resolved (store w) (environ w) f).
  { subst w1. simpl. rewrite GetString_resolved.
    - apply resolved_with_defaults.
    - done.
    - rewrite Hfs. by apply Lookup_app_r.
    - simpl. by rewrite lookup_insert_eq. }
  assert (Hfr : frame w w1) by (subst w1; repeat split).
  unfold bind, viper_do, modify, viper_GetString. fold w1. rewrite Hget.
  destruct (decide (resolved (store w) (environ w) f ≠ DefValue f)) as [Hne|Heq].
  - unfold flags_Set. simpl. rewrite Hfs, FlagSet_Set_app_r by done.
    eexists. split; [reflexivity|]. repeat split.
  - exists w1. rewrite app_nil_r. by repeat split.
Qed.

Lemma visit_initFlag post : ∀ pre w,
  flags w = pre ++ post →
  NoDup (Name <$> pre ++ post) →
  (∀ f, f ∈ post → pflags (store w) !! ToLower (Name f) = Some (Name f)) →
  ∃ w', visit post (initFlag ex) w = Return tt w'
    ∧ flags w' = pre ++ (resolve1 ex (store w) (environ w) <$> post)
    ∧ sets w' = sets w ++ (post ≫= writes1 ex (store w) (environ w))
    ∧ frame w w'.
Proof.
  induction post as [|f post IH]; intros pre w Hfs Hnd Hb.
  - exists w. simpl. rewrite !app_nil_r. rewrite app_nil_r in Hfs.
    repeat split; try done. by destruct (store w).
  - assert (Hnf : Name f ∉ Name <$> pre).
    { rewrite fmap_app, fmap_cons in Hnd.
      apply NoDup_app in Hnd as (_ & Hd & _).
      intros Hin. apply (Hd _ Hin). left. }
    destruct (initFlag_step pre post f w) as (w1 & Hrun1 & Hfl1 & Hs1 & Hfr1);
      [done | done | apply Hb; left |].
    destruct (IH (pre ++ [resolve1 ex (store w) (environ w) f]) w1)
      as (w' & Hrun & Hfl & Hsets & Hfr).
    + by rewrite <- app_assoc.
    + rewrite <- app_assoc, !fmap_app. simpl. rewrite resolve1_Name.
      by rewrite fmap_app in Hnd.
    + intros g Hg. rewrite (frame_pflags w w1) by done. apply Hb. by right.
    + exists w'. split; [|split; [|split]].
      * change (visit (f :: post) (initFlag ex) w)
          with (bind (initFlag ex f) (λ _, visit post (initFlag ex)) w).
        unfold bind. by rewrite Hrun1.
      * rewrite Hfl, <- app_assoc. simpl. f_equal. f_equal.
        apply list_fmap_ext. intros _ g _. by apply resolve1_frame.
      * rewrite Hsets, Hs1, <- app_assoc. simpl. f_equal. f_equal.
        apply list_bind_ext; [|done]. intros g. by apply writes1_frame.
      * by eapply frame_trans.
Qed.

(** The whole pass, on a registry with distinct keys. *)
Lemma initFlags_spec w :
  distinct_keys (flags w) →
  ∃ w', initFlags ex w = Return tt w'
    ∧ flags w' = resolve1 ex (store w) (environ w) <$> flags w
    ∧ sets w' = sets w ++ (flags w ≫= writes1 ex (store w) (environ w))
    ∧ frame (with_store (BindPFlags (flags w) (store w)) w) w'.
Proof.
  intros Hd. unfold initFlags, flags_VisitAll, bind, get, viper_do, modify.
  set (w0 := with_store (BindPFlags (flags w) (store w)) w).
  destruct (visit_initFlag (flags w) [] w0) as (w' & Hrun & Hfl & Hs & Hfr).
  - done.
  - simpl. by apply distinct_keys_names.
  - intros f Hf. subst w0. simpl. by apply BindPFlags_bound.
  - exists w'. split; [exact Hrun|].
    assert (Hres : ∀ f, resolved (store w0) (environ w0) f
                        = resolved (store w) (environ w) f).
    { intros f. subst w0. simpl. apply resolved_BindPFlags. }
    split; [|split].
    + rewrite Hfl. simpl. apply list_fmap_ext. intros _ f _.
      unfold resolve1. by rewrite Hres.
    + rewrite Hs. simpl. f_equal. apply list_bind_ext; [|done].
      intros f. unfold writes1. by rewrite Hres.
    + exact Hfr.
Qed.

End Resolution.

(** ** The environment binding *)

Section Environment.

Import Strings viper.

Lemma initEnv_spec w :
  initEnv w
  = Return tt (with_store (SetEnvKeyReplacer dash
                 (SetEnvPrefix "falcoctl" (AutomaticEnv (store w)))) w).
Proof. done. Qed.

Lemma env_bound_initEnv v :
  env_bound (SetEnvKeyReplacer dash (SetEnvPrefix "falcoctl" (AutomaticEnv v))).
Proof. done. Qed.

Lemma envKey_bound v name :
  env_bound v → envKey v (ToLower name) = envVar name.
Proof.
  intros (_ & Hp & Hr). unfold envKey, mergeWithEnvPrefix, envVar.
  rewrite Hr, Hp. rewrite decide_False by done.
  change ("falcoctl" ++ "_" ++ ToLower name)%string
    with (String.append "falcoctl_" (ToLower name)).
  unfold ToUpper at 1. rewrite map_string_app. fold (ToUpper (ToLower name)).
  rewrite ToUpper_ToLower. unfold Replace at 1. rewrite map_string_app.
  fold (Replace dash (ToUpper name)). rewrite Replace_dash_ToUpper. done.
Qed.

Lemma getEnv_bound v env name :
  env_bound v → getEnv v env (ToLower name) = nonEmpty (env !! envVar name).
Proof.
  intros Hb. unfold getEnv. rewrite (proj1 Hb). by rewrite envKey_bound.
Qed.

Lemma resolved_precedence v env f :
  env_bound v → resolved v env f = precedence (config v) env f.
Proof.
  intros Hb. unfold resolved, precedence. rewrite getEnv_bound by done.
  by destruct (config v !! _).
Qed.

End Environment.

(** ** The pass after [initEnv] *)

Section Pass.

Import Strings viper.
Implicit Types (w : World) (fs : FlagSet) (f : Flag).
Variable ex : gmap string bool.

Lemma settle_Name cfg env f : Name (settle ex cfg env f) = Name f.
Proof. unfold settle. by repeat case_match. Qed.


Lemma initFlags_bound w :
  distinct_keys (flags w) → env_bound (store w) →
  ∃ w', initFlags ex w = Return tt w'
    ∧ flags w' = settle ex (config (store w)) (environ w) <$> flags w
    ∧ sets w' = sets w ++ (flags w ≫= rewrites ex (config (store w)) (environ w))
    ∧ same_sources w w'.
Proof.
  intros Hd Hb.
  destruct (initFlags_spec ex w Hd) as (w' & Hrun & Hfl & Hs & Hfr).
  exists w'. split; [exact Hrun|]. split; [|split].
  - rewrite Hfl. apply list_fmap_ext. intros _ f _.
    unfold resolve1, settle. by rewrite resolved_precedence.
  - rewrite Hs. f_equal. apply list_bind_ext; [|done]. intros f.
    unfold writes1, rewrites. by rewrite resolved_precedence.
  - destruct Hfr as (Hl & Hlog & Henv & _ & _ & _ & Hst). simpl in *.
    destruct (BindPFlags_layers (flags w) (store w)) as (Ha & Hp & Hr & Hc).
    destruct Hb as (Ba & Bp & Br).
    unfold same_sources, env_bound. rewrite Hst. simpl.
    rewrite Ha, Hp, Hr, Hc. done.
Qed.

Lemma pass_spec w :
  distinct_keys (flags w) →
  ∃ w', (initEnv ;;; initFlags ex) w = Return tt w'
    ∧ flags w' = settle ex (config (store w)) (environ w) <$> flags w
    ∧ sets w' = sets w ++ (flags w ≫= rewrites ex (config (store w)) (environ w))
    ∧ same_sources w w'.
Proof.
  intros Hd. unfold bind. rewrite initEnv_spec.
  set (w0 := with_store _ w).
  destruct (initFlags_bound w0) as (w' & Hrun & Hfl & Hs & Hsrc);
    [done | apply env_bound_initEnv |].
  exists w'. by repeat split; try apply Hsrc.
Qed.



Lemma wf_registry_settle cfg env fs :
  wf_registry fs → wf_registry (settle ex cfg env <$> fs).
Proof.
  intros [Hd Hu]. split.
  - unfold distinct_keys in *. rewrite <- list_fmap_compose.
    erewrite list_fmap_ext; [exact Hd|].
    intros _ f _. simpl. by rewrite settle_Name.
  - unfold unset_is_default in *. apply Forall_fmap.
    eapply Forall_impl; [exact Hu|]. intros f Hf. simpl.
    unfold settle. repeat case_match; simpl; done.
Qed.

End Pass.

(** ** What the debug trace lists *)

Section DebugFlags.

Implicit Types (fs : FlagSet) (f : Flag).

Lemma changedFields_snoc fs f :
  changedFields (fs ++ [f])
  = if Changed f then <[Name f := Value f]> (changedFields fs)
    else changedFields fs.
Proof. unfold changedFields. by rewrite foldl_app. Qed.

Lemma changedFields_lookup fs f :
  NoDup (Name <$> fs) → f ∈ fs → Changed f = true →
  changedFields fs !! Name f = Some (Value f).
Proof.
  induction fs as [|g fs IH] using rev_ind; intros Hnd Hf Hc.
  - by apply elem_of_nil in Hf.
  - rewrite changedFields_snoc. rewrite fmap_app in Hnd. simpl in Hnd.
    apply NoDup_app in Hnd as (Hfs & Hd & _).
    apply elem_of_app in Hf as [Hf | Hf].
    + assert (Name g ≠ Name f).
      { intros E. apply (Hd (Name f)); [|rewrite E; left].
        apply list_elem_of_fmap. by exists f. }
      destruct (Changed g); [rewrite lookup_insert_ne by done|]; by apply IH.
    + apply list_elem_of_singleton in Hf as ->.
      rewrite Hc. by rewrite lookup_insert_eq.
Qed.

(** Conversely, the trace lists only flags that are marked as changed. *)
Lemma changedFields_inv fs name value :
  changedFields fs !! name = Some value →
  ∃ f, f ∈ fs ∧ Name f = name ∧ Changed f = true ∧ Value f = value.
Proof.
  induction fs as [|g fs IH] using rev_ind.
  - unfold changedFields. simpl. by rewrite lookup_empty.
  - rewrite changedFields_snoc. destruct (Changed g) eqn:Hc.
    + destruct (decide (Name g = name)) as [E|E].
      * rewrite E, lookup_insert_eq. intros [= <-].
        exists g. split; [apply elem_of_app; right; left | done].
      * rewrite lookup_insert_ne by done. intros H.
        destruct (IH H) as (f & ? & ?). exists f.
        split; [apply elem_of_app; by left | done].
    + intros H. destruct (IH H) as (f & ? & ?). exists f.
      split; [apply elem_of_app; by left | done].
Qed.

End DebugFlags.

(** ** Precedence, exclusion and write-back *)

Lemma bind_assoc {A B C} (m : M A) (k : A → M B) (h : B → M C) w :
  bind (bind m k) h w = bind m (λ a, bind (k a) h) w.
Proof. unfold bind. by destruct (m w). Qed.




Lemma index_exclude name :
  name ∈ ["config"; "loglevel"; "help"] → index exclude name = true.
Proof.
  rewrite !elem_of_cons, elem_of_nil. intros [-> | [-> | [-> | []]]]; done.
Qed.

(** C2. An option of the exclusion set (config, loglevel, help) is, after
    the resolution pass, exactly as before it: it holds the command-line
    value or, when never set, its default, whatever the environment and the
    configuration file contain. *)
Theorem initFlags_excluded (w : World) (f : Flag) :
  wf_registry (flags w) → f ∈ flags w →
  Name f ∈ ["config"; "loglevel"; "help"] →
  ∃ w', (initEnv ;;; initFlags exclude) w = Return tt w'
    ∧ Lookup (flags w') (Name f) = Some f
    ∧ (Changed f = false → Value f = DefValue f).
Proof.
  intros [Hd Hu] Hf Hex. apply index_exclude in Hex.
  destruct (pass_spec exclude w Hd) as (w' & Hrun & Hfl & _).
  exists w'. split; [exact Hrun|]. split.
  - rewrite Hfl, Lookup_fmap;
      [| apply settle_Name | by apply distinct_keys_names | done].
    unfold settle. by rewrite Hex.
  - by apply (unset_is_default_elem (flags w)).
Qed.

Lemma initFlags_excluded_witness :
  wf_registry (flags Demo.w) ∧ Demo.loglevel ∈ flags Demo.w
  ∧ Name Demo.loglevel ∈ ["config"; "loglevel"; "help"]
  ∧ environ Demo.w !! "FALCOCTL_LOGLEVEL" = Some "trace"
  ∧ viper.config (store Demo.w) !! "loglevel" = Some "debug"
  ∧ ∃ w', (initEnv ;;; initFlags exclude) Demo.w = Return tt w'
      ∧ Lookup (flags w') "loglevel" = Some (StringVarP "loglevel" "info")
      ∧ (false = false → "info" = "info").
Proof.
  assert (H1 : wf_registry (flags Demo.w)) by by_evaluation.
  assert (H2 : Demo.loglevel ∈ flags Demo.w) by by_evaluation.
  assert (H3 : Name Demo.loglevel ∈ ["config"; "loglevel"; "help"])
    by by_evaluation.
  split; [exact H1|]. split; [exact H2|]. split; [exact H3|].
  split; [vm_compute; reflexivity|]. split; [vm_compute; reflexivity|].
  exact (initFlags_excluded Demo.w Demo.loglevel H1 H2 H3).
Defined.

(** C7. In the resolution step for a non-excluded option of the registry,
    the value is written back if and only if the value the store resolves
    differs from the option's default.  The write stores that value as
    the option's current value and marks the option as changed, and
    touches no other option; when the resolved value equals the default
    there is no write and the registry, with the option's value and
    changed marker, stays as it is. *)
Theorem initFlag_write_iff (ex : gmap string bool) (w : World) (f : Flag) :
  index ex (Name f) = false →
  Lookup (flags w) (Name f) = Some f →
  let v := viper.GetString (viper.SetDefault (Name f) (DefValue f) (store w))
             (environ w) (flags w) (Name f) in
  ∃ w', initFlag ex f w = Return tt w'
    ∧ (sets w' = sets w ++ [(Name f, v)] ↔ v ≠ DefValue f)
    ∧ (v ≠ DefValue f →
       flags w' = default (flags w) (FlagSet_Set (flags w) (Name f) v)
       ∧ (∃ f', Lookup (flags w') (Name f) = Some f'
            ∧ Value f' = v ∧ Changed f' = true
            ∧ Name f' = Name f ∧ DefValue f' = DefValue f)
       ∧ ∀ other, other ≠ Name f →
           Lookup (flags w') other = Lookup (flags w) other)
    ∧ (v = DefValue f →
       sets w' = sets w ∧ flags w' = flags w
       ∧ Lookup (flags w') (Name f) = Some f).
Proof.
  intros Hex Hl v. unfold initFlag. rewrite Hex.
  unfold bind, viper_do, modify, viper_GetString. simpl. fold v.
  destruct (decide (v ≠ DefValue f)) as [Hne | Heq].
  - unfold flags_Set. simpl.
    destruct (FlagSet_Set_Lookup (flags w) (Name f) v f Hl)
      as (fs' & Hset & Hl' & Ho).
    rewrite Hset. simpl.
    eexists. split; [reflexivity|]. simpl. split; [done|]. split; [|done].
    intros _. split; [done|]. split; [|exact Ho].
    exists (assign v f). by rewrite Hl'.
  - eexists. split; [reflexivity|]. simpl. split; [|split]; [|done|done].
    split; [|done].
    intros E. apply (f_equal List.length) in E. rewrite length_app in E.
    simpl in E. lia.
Qed.

Lemma initFlag_write_iff_witness :
  index exclude (Name Demo.timeout) = false
  ∧ Lookup (flags Demo.w) (Name Demo.timeout) = Some Demo.timeout
  ∧ ∃ w', initFlag exclude Demo.timeout Demo.w = Return tt w'
      ∧ (sets w' = sets Demo.w ++ [("timeout", "60")] ↔ "60" ≠ "30")
      ∧ ("60" ≠ "30" →
         flags w' = default (flags Demo.w)
                      (FlagSet_Set (flags Demo.w) "timeout" "60")
         ∧ (∃ f', Lookup (flags w') "timeout" = Some f'
              ∧ Value f' = "60" ∧ Changed f' = true
              ∧ Name f' = "timeout" ∧ DefValue f' = "30")
         ∧ ∀ other, other ≠ "timeout" →
             Lookup (flags w') other = Lookup (flags Demo.w) other)
      ∧ ("60" = "30" →
         sets w' = sets Demo.w ∧ flags w' = flags Demo.w
         ∧ Lookup (flags w') "timeout" = Some Demo.timeout).
Proof.
  assert (H1 : index exclude (Name Demo.timeout) = false) by (vm_compute; reflexivity).
  assert (H2 : Lookup (flags Demo.w) (Name Demo.timeout) = Some Demo.timeout)
    by (vm_compute; reflexivity).
  split; [exact H1|]. split; [exact H2|].
  exact (initFlag_write_iff exclude Demo.w Demo.timeout H1 H2).
Defined.

(** C10. A non-excluded option that the command line did not supply, and
    whose value resolved from the environment (a variable that is set and
    not empty) or the file differs from its default, leaves the pass
    marked as changed and holding that value: the very flag a
    command-line write of the value would have produced, and listed as
    such by [debugFlags].  The names of the registry are in ASCII. *)
Theorem initFlags_marks_changed (ex : gmap string bool) (w : World) (f : Flag) :
  ascii_names (flags w) →
  distinct_keys (flags w) → f ∈ flags w → index ex (Name f) = false →
  Changed f = false →
  precedence (viper.config (store w)) (environ w) f ≠ DefValue f →
  ∃ w' f', (initEnv ;;; initFlags ex) w = Return tt w'
    ∧ Lookup (flags w') (Name f) = Some f'
    ∧ Changed f' = true
    ∧ Value f' = precedence (viper.config (store w)) (environ w) f
    ∧ FlagSet_Set (flags w) (Name f) (Value f') ≫= (λ fs, Lookup fs (Name f))
      = Some f'
    ∧ changedFields (flags w') !! Name f = Some (Value f').
Proof.
  intros _ Hd Hf Hex Hc Hne.
  set (v := precedence (viper.config (store w)) (environ w) f) in *.
  pose proof (distinct_keys_names _ Hd) as Hnd.
  destruct (pass_spec ex w Hd) as (w' & Hrun & Hfl & _).
  assert (Hset : settle ex (viper.config (store w)) (environ w) f = assign v f).
  { unfold settle. rewrite Hex. fold v. by rewrite decide_True. }
  assert (Hl : Lookup (flags w') (Name f) = Some (assign v f)).
  { rewrite Hfl, Lookup_fmap; [by rewrite Hset | apply settle_Name | done | done]. }
  exists w', (assign v f). split; [exact Hrun|]. split; [exact Hl|].
  split; [done|]. split; [done|]. split.
  - simpl. apply list_elem_of_split in Hf as (pre & post & E).
    rewrite E in Hnd |- *. rewrite fmap_app, fmap_cons in Hnd.
    apply NoDup_app in Hnd as (_ & Hdis & _).
    assert (Name f ∉ Name <$> pre).
    { intros Hin. apply (Hdis _ Hin). left. }
    rewrite FlagSet_Set_app_r by done. simpl.
    exact (Lookup_app_r pre post (assign v f) H).
  - apply Lookup_Some in Hl as [Hin _].
    apply (changedFields_lookup (flags w') (assign v f)); [|done|done].
    rewrite Hfl, <- list_fmap_compose.
    erewrite list_fmap_ext; [exact Hnd|].
    intros _ g _. apply settle_Name.
Qed.

Lemma initFlags_marks_changed_witness :
  ascii_names (flags Demo.w)
  ∧ distinct_keys (flags Demo.w) ∧ Demo.timeout ∈ flags Demo.w
  ∧ index exclude (Name Demo.timeout) = false
  ∧ Changed Demo.timeout = false
  ∧ precedence (viper.config (store Demo.w)) (environ Demo.w) Demo.timeout
    ≠ DefValue Demo.timeout
  ∧ ∃ w' f', (initEnv ;;; initFlags exclude) Demo.w = Return tt w'
      ∧ Lookup (flags w') "timeout" = Some f'
      ∧ Changed f' = true
      ∧ Value f' = "60"
      ∧ FlagSet_Set (flags Demo.w) "timeout" (Value f')
          ≫= (λ fs, Lookup fs "timeout") = Some f'
      ∧ changedFields (flags w') !! "timeout" = Some (Value f').
Proof.
  assert (H1 : distinct_keys (flags Demo.w)) by by_evaluation.
  assert (H2 : Demo.timeout ∈ flags Demo.w) by by_evaluation.
  assert (H3 : index exclude (Name Demo.timeout) = false) by (vm_compute; reflexivity).
  assert (H4 : Changed Demo.timeout = false) by reflexivity.
  assert (H5 : precedence (viper.config (store Demo.w)) (environ Demo.w)
                 Demo.timeout ≠ DefValue Demo.timeout) by (vm_compute; discriminate).
  assert (H0 : ascii_names (flags Demo.w)) by by_evaluation.
  split; [exact H0|].
  split; [exact H1|]. split; [exact H2|]. split; [exact H3|].
  split; [exact H4|]. split; [exact H5|].
  exact (initFlags_marks_changed exclude Demo.w Demo.timeout H0 H1 H2 H3 H4 H5).
Defined.

(** C9. After the resolution pass a debug-level trace is emitted that
    lists every option whose final value differs from its default, paired
    with that final value. *)
Theorem debugFlags_lists_changes (ex : gmap string bool) (w : World) :
  wf_registry (flags w) →
  ∃ w' e, (initEnv ;;; initFlags ex ;;; debugFlags) w = Return tt w'
    ∧ log w' = log w ++ [e]
    ∧ logger.e_level e = logger.DebugLevel
    ∧ logger.e_msg e = "running with options"
    ∧ ∀ f, f ∈ flags w' → Value f ≠ DefValue f →
        logger.e_fields e !! Name f = Some (Value f).
Proof.
  intros Hwf. pose proof Hwf as [Hd Hu].
  destruct (pass_spec ex w Hd) as (w1 & Hrun & Hfl & _ & Hsrc).
  destruct Hsrc as (_ & _ & _ & Hlog & _).
  pose proof (wf_registry_settle ex (viper.config (store w)) (environ w) _ Hwf)
    as [Hd1 Hu1].
  rewrite <- Hfl in Hd1, Hu1.
  exists (with_log (log w1 ++ [logger.mkEntry logger.DebugLevel
                                 (changedFields (flags w1)) "running with options"]) w1).
  eexists. split.
  { rewrite <- bind_assoc. unfold bind at 1. rewrite Hrun. reflexivity. }
  simpl. rewrite Hlog. split; [reflexivity|]. split; [done|]. split; [done|].
  intros f Hf Hne. apply changedFields_lookup; [by apply distinct_keys_names|done|].
  destruct (Changed f) eqn:Hc; [done|].
  by apply (unset_is_default_elem (flags w1)) in Hc.
Qed.

Lemma debugFlags_lists_changes_witness :
  wf_registry (flags Demo.w)
  ∧ ∃ w' e, (initEnv ;;; initFlags exclude ;;; debugFlags) Demo.w = Return tt w'
      ∧ log w' = log Demo.w ++ [e]
      ∧ logger.e_level e = logger.DebugLevel
      ∧ logger.e_msg e = "running with options"
      ∧ ∀ f, f ∈ flags w' → Value f ≠ DefValue f →
          logger.e_fields e !! Name f = Some (Value f).
Proof.
  assert (H1 : wf_registry (flags Demo.w)) by by_evaluation.
  split; [exact H1|].
  exact (debugFlags_lists_changes exclude Demo.w H1).
Defined.

(** ** Running the pass twice *)




(** ** The validation gate *)

Section Gate.

Variable Validate : ConfigOptions → option (list error).

Lemma range_validation errs : ∀ w,
  range errs (λ err, logger_Error (logger.WithError err ∅)
                       "error validating config options") w
  = Return tt (with_log (log w ++ (validationEntry <$> errs)) w).
Proof.
  induction errs as [|e errs IH]; intros w; simpl.
  - rewrite app_nil_r. by destruct w.
  - unfold bind, logger_Error, emit, modify. rewrite IH. simpl.
    by rewrite <- app_assoc.
Qed.

(** C3. When validation returns a non-empty list of errors, every error of
    the list is logged, in order, and the process ends with exit status 1;
    the store, the flag registry and the logger level are as they were, so
    no environment binding, file loading or flag resolution took place. *)
Theorem validateConfig_gate (co : ConfigOptions) (errs : list error) (w : World) :
  Validate co = Some errs → errs ≠ [] →
  ∃ w', PersistentPreRun Validate co w = Exit 1 w'
    ∧ log w' = log w ++ (validationEntry <$> errs)
                     ++ [logger.mkEntry logger.FatalLevel ∅
                           "exiting for validation errors"]
    ∧ store w' = store w ∧ flags w' = flags w ∧ sets w' = sets w
    ∧ level w' = level w.
Proof.
  intros Hv _. unfold PersistentPreRun, validateConfig. rewrite Hv.
  unfold bind at 1. unfold bind at 1. rewrite range_validation.
  unfold logger_Fatal. simpl. eexists. split; [reflexivity|]. simpl.
  by rewrite <- app_assoc.
Qed.

End Gate.

Lemma validateConfig_gate_witness :
  Demo.Validate Demo.badOptions = Some Demo.badErrors
  ∧ Demo.badErrors ≠ []
  ∧ ∃ w', PersistentPreRun Demo.Validate Demo.badOptions Demo.w = Exit 1 w'
      ∧ log w' = log Demo.w ++ (validationEntry <$> Demo.badErrors)
                   ++ [logger.mkEntry logger.FatalLevel ∅
                         "exiting for validation errors"]
      ∧ store w' = store Demo.w ∧ flags w' = flags Demo.w
      ∧ sets w' = sets Demo.w ∧ level w' = level Demo.w.
Proof.
  assert (H1 : Demo.Validate Demo.badOptions = Some Demo.badErrors)
    by (vm_compute; reflexivity).
  assert (H2 : Demo.badErrors ≠ []) by discriminate.
  split; [exact H1|]. split; [exact H2|].
  exact (validateConfig_gate Demo.Validate Demo.badOptions _ Demo.w H1 H2).
Defined.

(** ** Loading the configuration file *)

Lemma initConfig_explicit (p : string) (w : World) :
  p ≠ "" →
  initConfig p w
  = bind viper_ReadInConfig (λ err,
      match err with
      | None =>
          used <- viper_ConfigFileUsed ;;
          logger_Info (logger.WithField "file" used ∅) "using config file"
      | Some (ConfigFileNotFoundError _ _) =>
          logger_Debug ∅ "running without a configuration file"
      | Some err =>
          used <- viper_ConfigFileUsed ;;
          logger_Fatal (logger.WithError err (logger.WithField "file" used ∅))
                       "error running with config file"
      end) (with_store (viper.with_configFile p (store w)) w).
Proof.
  intros Hp. unfold initConfig. rewrite decide_True by done.
  unfold bind at 1, viper_do, modify, viper.SetConfigFile.
  by rewrite decide_False.
Qed.

Lemma Clean_abs p : filepath.IsAbs p = true → filepath.IsAbs (filepath.Clean p) = true.
Proof.
  intros Hp. unfold filepath.Clean. rewrite Hp.
  destruct p; [done|]. by rewrite decide_False.
Qed.

Lemma Join_abs a b : filepath.IsAbs a = true → filepath.IsAbs (filepath.Join a b) = true.
Proof.
  intros Ha. unfold filepath.Join. destruct a as [|c a]; [done|].
  rewrite decide_False by done. by apply Clean_abs.
Qed.

Lemma firstExisting_absent files names :
  Forall (absent files) names → viper.firstExisting files names = None.
Proof. induction 1 as [|n names Hn _ IH]; [done|]. simpl. by rewrite Hn. Qed.

Lemma firstExisting_found files pre n post x :
  Forall (absent files) pre → files !! n = Some x →
  viper.firstExisting files (pre ++ n :: post) = Some n.
Proof.
  intros Hpre Hn. induction Hpre as [|m pre Hm _ IH]; simpl.
  - by rewrite Hn.
  - by rewrite Hm.
Qed.

Lemma firstExisting_exists files names n :
  viper.firstExisting files names = Some n → is_Some (files !! n).
Proof.
  induction names as [|m names IH]; [done|]. simpl.
  destruct (files !! m) eqn:E; [|done]. intros [= <-]. by rewrite E.
Qed.

Lemma defaultSearch_located h v files :
  filepath.IsAbs h = true →
  viper.configPaths v = [] →
  viper.configFile (defaultSearch h v) = ""
  ∧ viper.findConfigFile (defaultSearch h v) files
      (viper.configPaths (defaultSearch h v))
    = viper.firstExisting files (defaultCandidates (viper.supportedExts v) h)
  ∧ viper.config (defaultSearch h v) = viper.config v.
Proof.
  intros Hh Hp. unfold defaultSearch, viper.AddConfigPath.
  assert (Hne : filepath.Join h configDir ≠ "").
  { intros E. pose proof (Join_abs h configDir Hh) as Ha. by rewrite E in Ha. }
  rewrite decide_False by done. rewrite Hp.
  rewrite decide_False by apply not_elem_of_nil. simpl.
  unfold viper.searchInPath, viper.candidates, defaultCandidates. simpl.
  fold (defaultConfigDir h).
  by destruct (viper.firstExisting files _).
Qed.

Lemma defaultCandidates_split exts h pre ext post :
  exts = pre ++ ext :: post →
  defaultCandidates exts h
  = (defaultConfigFileAs h <$> pre)
    ++ defaultConfigFileAs h ext
       :: ((defaultConfigFileAs h <$> post)
           ++ [filepath.Join (defaultConfigDir h) configName]).
Proof.
  intros ->. unfold defaultCandidates.
  change (λ ext0, filepath.Join (defaultConfigDir h) (configName ++ "." ++ ext0)%string)
    with (defaultConfigFileAs h).
  rewrite fmap_app. simpl. by rewrite <- app_assoc.
Qed.

Lemma Forall_fmap_absent files h exts :
  Forall (λ e, absent files (defaultConfigFileAs h e)) exts →
  Forall (absent files) (defaultConfigFileAs h <$> exts).
Proof. intros H. by apply Forall_fmap. Qed.

Lemma initConfig_default (h : string) (w : World) :
  home w = inl h →
  initConfig "" w
  = bind viper_ReadInConfig (λ err,
      match err with
      | None =>
          used <- viper_ConfigFileUsed ;;
          logger_Info (logger.WithField "file" used ∅) "using config file"
      | Some (ConfigFileNotFoundError _ _) =>
          logger_Debug ∅ "running without a configuration file"
      | Some err =>
          used <- viper_ConfigFileUsed ;;
          logger_Fatal (logger.WithError err (logger.WithField "file" used ∅))
                       "error running with config file"
      end) (with_store (defaultSearch h (store w)) w).
Proof.
  intros Hh. unfold initConfig. rewrite decide_False by (intros H; by apply H).
  unfold bind at 1. unfold bind at 1. unfold get. rewrite Hh.
  reflexivity.
Qed.

(** C4. Loading the configuration file has two kinds of outcome.  With no
    explicit path and no file at the default location (none of the files
    the search looks for under the home directory exists) the process
    goes on: nothing fatal is logged and the file layer of the store is
    as before.  With a file that does not parse, at the default location
    (the first file the search finds) or at an explicit path, or with an
    explicit path that cannot be read, the process logs a fatal entry and
    ends with exit status 1. *)
Theorem initConfig_outcomes (w : World) :
  (∀ h, home w = inl h → filepath.IsAbs h = true →
     viper.configPaths (store w) = [] →
     Forall (absent (files w))
            (defaultCandidates (viper.supportedExts (store w)) h) →
     ∃ w', initConfig "" w = Return tt w'
       ∧ viper.config (store w') = viper.config (store w)
       ∧ log w' = log w ++ [logger.mkEntry logger.DebugLevel ∅
                              "running without a configuration file"])
  ∧ (∀ h pre ext post, home w = inl h → filepath.IsAbs h = true →
     viper.configPaths (store w) = [] →
     viper.supportedExts (store w) = pre ++ ext :: post →
     Forall (λ e, absent (files w) (defaultConfigFileAs h e)) pre →
     files w !! defaultConfigFileAs h ext = Some viper.Malformed →
     ∃ w', initConfig "" w = Exit 1 w' ∧ fatal w')
  ∧ (∀ p, p ≠ "" → files w !! p = Some viper.Malformed →
     ∃ w', initConfig p w = Exit 1 w' ∧ fatal w')
  ∧ (∀ p, p ≠ "" →
     files w !! p = None ∨ files w !! p = Some viper.Unreadable →
     ∃ w', initConfig p w = Exit 1 w' ∧ fatal w').
Proof.
  split; [|split; [|split]].
  - intros h Hh Habs Hp Hf. rewrite (initConfig_default h) by done.
    destruct (defaultSearch_located h (store w) (files w) Habs Hp)
      as (Hcf & Hfind & Hc).
    rewrite (firstExisting_absent _ _ Hf) in Hfind.
    unfold bind, viper_ReadInConfig, viper.ReadInConfig. simpl store. simpl files.
    rewrite Hcf, Hfind. rewrite decide_True by done.
    eexists. split; [reflexivity|]. split; [exact Hc | done].
  - intros h pre ext post Hh Habs Hp Hexts Hpre Hf.
    rewrite (initConfig_default h) by done.
    destruct (defaultSearch_located h (store w) (files w) Habs Hp)
      as (Hcf & Hfind & Hc).
    rewrite (defaultCandidates_split _ _ _ _ _ Hexts) in Hfind.
    rewrite (firstExisting_found _ _ _ _ _ (Forall_fmap_absent _ _ _ Hpre) Hf)
      in Hfind.
    unfold bind, viper_ReadInConfig, viper.ReadInConfig. simpl store. simpl files.
    rewrite Hcf, Hfind. rewrite decide_True by done. rewrite Hf.
    eexists. split; [reflexivity|]. eexists. simpl. rewrite last_snoc. done.
  - intros p Hp Hf. rewrite initConfig_explicit by done.
    unfold bind, viper_ReadInConfig, viper.ReadInConfig. simpl store. simpl files.
    simpl viper.configFile. rewrite decide_False by done. rewrite Hf.
    eexists. split; [reflexivity|]. eexists. simpl. rewrite last_snoc. done.
  - intros p Hp Hf. rewrite initConfig_explicit by done.
    unfold bind, viper_ReadInConfig, viper.ReadInConfig. simpl store. simpl files.
    simpl viper.configFile. rewrite decide_False by done.
    destruct Hf as [-> | ->];
      (eexists; split; [reflexivity|]; eexists; simpl; rewrite last_snoc; done).
Qed.

Lemma initConfig_outcomes_witness :
  (∃ w', initConfig "" Demo.w = Return tt w'
     ∧ viper.config (store w') = viper.config (store Demo.w)
     ∧ log w' = log Demo.w ++ [logger.mkEntry logger.DebugLevel ∅
                                 "running without a configuration file"])
  ∧ (∃ w', initConfig "" Demo.w_malformed = Exit 1 w' ∧ fatal w')
  ∧ (∃ w', initConfig "/etc/falcoctl.yaml" Demo.w_malformed = Exit 1 w'
       ∧ fatal w')
  ∧ (∃ w', initConfig "/etc/missing.yaml" Demo.w_malformed = Exit 1 w'
       ∧ fatal w')
  ∧ (∃ w', initConfig "/etc/shadow.yaml" Demo.w_malformed = Exit 1 w'
       ∧ fatal w').
Proof.
  split; [|split; [|split; [|split]]].
  - apply (proj1 (initConfig_outcomes Demo.w) "/home/u");
      [reflexivity | reflexivity | reflexivity | by_evaluation].
  - apply (proj1 (proj2 (initConfig_outcomes Demo.w_malformed))
             "/home/u" ["json"; "toml"] "yaml" Demo.laterExts);
      [reflexivity | reflexivity | reflexivity | reflexivity
      | by_evaluation | vm_compute; reflexivity].
  - apply (proj1 (proj2 (proj2 (initConfig_outcomes Demo.w_malformed))));
      [discriminate | vm_compute; reflexivity].
  - apply (proj2 (proj2 (proj2 (initConfig_outcomes Demo.w_malformed))));
      [discriminate | left; vm_compute; reflexivity].
  - apply (proj2 (proj2 (proj2 (initConfig_outcomes Demo.w_malformed))));
      [discriminate | right; vm_compute; reflexivity].
Defined.

(** ** The environment variable of an option *)

Lemma envVar_bytes (name : string) :
  envVar name
  = String.append "FALCOCTL_"
      (Strings.map_string
         (λ c, if Ascii.eqb c "-" then "_"%char else Strings.upper_ascii c) name).
Proof.
  unfold envVar, Strings.ToUpper, Strings.Replace. f_equal.
  rewrite map_string_compose. apply map_string_ext.
  intros c. unfold Strings.replace_ascii. simpl.
  by destruct (Ascii.eqb c "-").
Qed.

(** C8. After [initEnv], the environment variable the store consults for
    an option (its name in ASCII) is the option's name with every dash
    turned into an underscore, behind the upper-case prefix [FALCOCTL_];
    apart from the letter case, which is folded to upper case, no byte of
    the name is changed, so names that differ only in case consult the
    same variable, and a variable that is set to a value that is not
    empty is what [GetString] returns for a key that no flag set on the
    command line claims. *)
Theorem initEnv_variable (w : World) (name : string) :
  Strings.is_ascii name = true →
  ∃ w', initEnv w = Return tt w'
    ∧ viper.envKey (store w') (Strings.ToLower name) = envVar name
    ∧ viper.getEnv (store w') (environ w') (Strings.ToLower name)
      = viper.nonEmpty (environ w !! envVar name)
    ∧ envVar name
      = String.append "FALCOCTL_"
          (Strings.map_string
             (λ c, if Ascii.eqb c "-" then "_"%char else Strings.upper_ascii c)
             name)
    ∧ (∀ name', Strings.is_ascii name' = true →
         Strings.ToLower name' = Strings.ToLower name →
         envVar name' = envVar name
         ∧ ∀ fs, viper.GetString (store w') (environ w') fs name'
                 = viper.GetString (store w') (environ w') fs name)
    ∧ (∀ fs val,
         (viper.pflags (store w') !! Strings.ToLower name ≫= Lookup fs)
           ≫= (λ f, if Changed f then Some (Value f) else None) = None →
         environ w !! envVar name = Some val →
         val ≠ "" →
         viper.GetString (store w') (environ w') fs name = val).
Proof.
  intros _. rewrite initEnv_spec. eexists. split; [reflexivity|]. simpl.
  pose proof (env_bound_initEnv (store w)) as Hb.
  split; [by apply envKey_bound|].
  split; [by apply getEnv_bound|]. split; [apply envVar_bytes|]. split.
  - intros name' _ E. split.
    + unfold envVar. rewrite <- !Replace_dash_ToUpper.
      by rewrite <- (ToUpper_ToLower name'), E, ToUpper_ToLower.
    + intros fs. unfold viper.GetString. by rewrite E.
  - intros fs val Hcli Henv Hne. unfold viper.GetString, viper.find.
    change (viper.pflags (viper.SetEnvKeyReplacer dash _))
      with (viper.pflags (store w)).
    rewrite Hcli. rewrite getEnv_bound by done. rewrite Henv. simpl.
    by rewrite decide_False.
Qed.

Lemma initEnv_variable_witness :
  Strings.is_ascii "Registry-URL" = true
  ∧ ∃ w', initEnv Demo.w = Return tt w'
    ∧ viper.envKey (store w') (Strings.ToLower "Registry-URL")
      = envVar "Registry-URL"
    ∧ viper.getEnv (store w') (environ w') (Strings.ToLower "Registry-URL")
      = viper.nonEmpty (environ Demo.w !! envVar "Registry-URL")
    ∧ envVar "Registry-URL"
      = String.append "FALCOCTL_"
          (Strings.map_string
             (λ c, if Ascii.eqb c "-" then "_"%char else Strings.upper_ascii c)
             "Registry-URL")
    ∧ (∀ name', Strings.is_ascii name' = true →
         Strings.ToLower name' = Strings.ToLower "Registry-URL" →
         envVar name' = envVar "Registry-URL"
         ∧ ∀ fs, viper.GetString (store w') (environ w') fs name'
                 = viper.GetString (store w') (environ w') fs "Registry-URL")
    ∧ (∀ fs val,
         (viper.pflags (store w') !! Strings.ToLower "Registry-URL" ≫= Lookup fs)
           ≫= (λ f, if Changed f then Some (Value f) else None) = None →
         environ Demo.w !! envVar "Registry-URL" = Some val →
         val ≠ "" →
         viper.GetString (store w') (environ w') fs "Registry-URL" = val).
Proof.
  assert (H1 : Strings.is_ascii "Registry-URL" = true) by reflexivity.
  split; [exact H1|].
  exact (initEnv_variable Demo.w "Registry-URL" H1).
Defined.

Lemma initEnv_variable_example :
  envVar "registry-url" = "FALCOCTL_REGISTRY_URL"
  ∧ envVar "Registry-URL" = "FALCOCTL_REGISTRY_URL"
  ∧ envVar "log.level" = "FALCOCTL_LOG.LEVEL".
Proof. repeat split. Qed.

(** ** The signal-aware context *)

Section SignalFacts.

Import Signals.

Lemma Inv_WithSignals p : Inv (WithSignals p).
Proof. by split. Qed.

Lemma Inv_step e st st' : step e st = Some st' → Inv st → Inv st'.
Proof.
  intros Hs [Hp Ht]. destruct e; simpl in Hs.
  - simplify_eq. split; [done|]. simpl. destruct (task st); try done.
    + destruct Ht as [[_ ?] | ?]; [by left | by right].
    + by destruct Ht.
  - destruct (sigCh st); simplify_eq; by split.
  - destruct (task st) eqn:Et, (ctx st) eqn:Ec; simplify_eq.
    split; [done|]. simpl. by left.
  - destruct (task st) eqn:Et, (sigCh st); simplify_eq. by split.
  - destruct (task st) eqn:Et; simplify_eq. split; [done|]. simpl.
    rewrite Ht. right. by exists s.
  - destruct (task st) eqn:Et; simplify_eq. split; [done|]. simpl.
    split; [done|]. destruct Ht as [[_ ->] | [s ->]]; simpl; lia.
Qed.

Lemma Inv_run tr : ∀ st st', run tr st = Some st' → Inv st → Inv st'.
Proof.
  induction tr as [|e tr IH]; simpl; intros st st' Hr Hi; [by simplify_eq|].
  destruct (step e st) as [st1|] eqn:Hs; simpl in Hr; [|done].
  eapply IH; [done|]. by eapply Inv_step.
Qed.

(** Cancelled is terminal. *)
Lemma step_Cancelled e st st' :
  step e st = Some st' → ctx st = Cancelled → ctx st' = Cancelled.
Proof.
  destruct e; simpl; intros Hs Hc; repeat case_match; by simplify_eq.
Qed.

Lemma run_Cancelled tr : ∀ st st',
  run tr st = Some st' → ctx st = Cancelled →
  ctx st' = Cancelled ∧ transitions tr st = 0.
Proof.
  induction tr as [|e tr IH]; simpl; intros st st' Hr Hc; [by simplify_eq|].
  destruct (step e st) as [st1|] eqn:Hs; simpl in Hr; [|done].
  pose proof (step_Cancelled _ _ _ Hs Hc) as Hc1.
  destruct (IH _ _ Hr Hc1) as [? ->]. unfold cancels. by rewrite Hc.
Qed.

(** A run takes the transition once if it ends Cancelled, and never
    otherwise. *)
Lemma transitions_Active tr : ∀ st st',
  run tr st = Some st' → ctx st = Active →
  transitions tr st = if ctx st' is Cancelled then 1 else 0.
Proof.
  induction tr as [|e tr IH]; simpl; intros st st' Hr Hc.
  - simplify_eq. by rewrite Hc.
  - destruct (step e st) as [st1|] eqn:Hs; simpl in Hr; [|done].
    unfold cancels. rewrite Hc. destruct (ctx st1) eqn:Hc1.
    + by rewrite (IH _ _ Hr Hc1).
    + destruct (run_Cancelled _ _ _ Hr Hc1) as [-> ->]. done.
Qed.

(** Once the goroutine has finished, only external events happen, and
    they change neither the context nor the log. *)
Lemma step_Exited e st st' :
  step e st = Some st' → task st = Exited →
  external e ∧ task st' = Exited ∧ log st' = log st.
Proof.
  destruct e; simpl; intros Hs Ht; rewrite ?Ht in Hs;
    repeat case_match; by simplify_eq.
Qed.

Lemma run_Exited tr : ∀ st st',
  run tr st = Some st' → task st = Exited →
  Forall external tr ∧ task st' = Exited ∧ log st' = log st.
Proof.
  induction tr as [|e tr IH]; simpl; intros st st' Hr Ht; [by simplify_eq|].
  destruct (step e st) as [st1|] eqn:Hs; simpl in Hr; [|done].
  destruct (step_Exited _ _ _ Hs Ht) as (He & Ht1 & Hl1).
  destruct (IH _ _ Hr Ht1) as (Hall & ? & ->). by repeat split; [constructor|..].
Qed.

(** The clause fails when the parent's cancellation is what cancels the
    derived context: the goroutine has not finished then.  With an
    interrupt relayed before it runs, its [select] has both cases ready
    and may take the signal: three steps of the goroutine follow the
    transition, and the signal is logged. *)
Lemma WithSignals_works_after_parent_cancel :
  (∃ st st', run parentFirst (WithSignals Active) = Some st
     ∧ ctx st = Cancelled ∧ transitions parentFirst (WithSignals Active) = 1
     ∧ run thenSignal st = Some st'
     ∧ steps_taken thenSignal = 3
     ∧ log st = [] ∧ log st' = [received SIGINT])
  ∧ ¬ idle_once_cancelled.
Proof.
  split.
  - eexists _, _. repeat split; reflexivity.
  - intros H.
    destruct (H parentFirst _ thenSignal _ eq_refl eq_refl eq_refl) as [_ Hl].
    discriminate Hl.
Qed.

(** C5, as amended. The derived context is a machine of two states.  It
    starts Active.  Along any run it goes from Active to Cancelled at most
    once, exactly once when the run ends Cancelled, and Cancelled is
    terminal.  The step that cancels it is either the cancellation of the
    parent or the goroutine's deferred [cancel] after it received one
    signal, never both; in the second case the goroutine has finished
    with that step.  At most one signal is ever logged; and once the
    goroutine has finished, whatever follows (a second signal included)
    is no step of the goroutine and changes neither the context nor the
    log. *)
Theorem WithSignals_two_state (tr : list Event) (st : State) :
  run tr (WithSignals Active) = Some st →
  ctx (WithSignals Active) = Active
  ∧ transitions tr (WithSignals Active) = (if ctx st is Cancelled then 1 else 0)
  ∧ (∀ e st', step e st = Some st' → ctx st = Cancelled → ctx st' = Cancelled)
  ∧ (∀ e st', step e st = Some st' → cancels st st' = true →
       (e = ParentCancel ∧ task st' = task st)
       ∨ (e = DeferredCancel ∧ task st' = Exited
          ∧ ∃ s, log st = [received s]))
  ∧ (List.length (log st) ≤ 1)%nat
  ∧ (task st = Exited →
       ctx st = Cancelled
       ∧ ∀ tr' st', run tr' st = Some st' →
           Forall external tr' ∧ ctx st' = Cancelled
           ∧ task st' = Exited ∧ log st' = log st).
Proof.
  intros Hr.
  pose proof (Inv_run _ _ _ Hr (Inv_WithSignals Active)) as Hi.
  split; [done|]. split; [by apply transitions_Active|].
  split; [intros e st'; apply step_Cancelled|].
  split; [|split].
  - intros e st' Hs Hc. unfold cancels in Hc.
    destruct (ctx st) eqn:Ec; [|done].
    destruct e; simpl in Hs; rewrite ?Ec in Hs.
    + left. by simplify_eq.
    + destruct (sigCh st); simplify_eq; simpl in Hc; by rewrite Ec in Hc.
    + destruct (task st); by simplify_eq.
    + destruct (task st), (sigCh st); simplify_eq; simpl in Hc;
        by rewrite ?Ec in Hc.
    + destruct (task st); simplify_eq; simpl in Hc; by rewrite ?Ec in Hc.
    + right. split; [done|]. destruct Hi as [_ Ht].
      destruct (task st); simplify_eq. split; [done|].
      destruct Ht as [[? _] | ?]; [congruence | done].
  - destruct Hi as [_ Ht]. destruct (task st).
    + rewrite Ht. simpl. lia.
    + rewrite Ht. simpl. lia.
    + destruct Ht as [[_ ->] | [s ->]]; simpl; lia.
    + by destruct Ht.
  - intros Ht. destruct Hi as [_ Hi]. rewrite Ht in Hi. destruct Hi as [Hc _].
    split; [done|]. intros tr' st' Hr'.
    destruct (run_Exited _ _ _ Hr' Ht) as (? & ? & ?).
    destruct (run_Cancelled _ _ _ Hr' Hc) as [? _]. done.
Qed.

Lemma WithSignals_two_state_witness :
  run scenario (WithSignals Active) = Some afterScenario
  ∧ ctx (WithSignals Active) = Active
  ∧ transitions scenario (WithSignals Active) = 1
  ∧ (∀ e st', step e afterScenario = Some st' →
       ctx afterScenario = Cancelled → ctx st' = Cancelled)
  ∧ (∀ e st', step e afterScenario = Some st' →
       cancels afterScenario st' = true →
       (e = ParentCancel ∧ task st' = task afterScenario)
       ∨ (e = DeferredCancel ∧ task st' = Exited
          ∧ ∃ s, log afterScenario = [received s]))
  ∧ (List.length (log afterScenario) ≤ 1)%nat
  ∧ (task afterScenario = Exited →
       ctx afterScenario = Cancelled
       ∧ ∀ tr' st', run tr' afterScenario = Some st' →
           Forall external tr' ∧ ctx st' = Cancelled
           ∧ task st' = Exited ∧ log st' = log afterScenario).
Proof.
  assert (H : run scenario (WithSignals Active) = Some afterScenario)
    by reflexivity.
  split; [exact H|].
  exact (WithSignals_two_state scenario afterScenario H).
Defined.

End SignalFacts.

(** * Further properties of the code *)

(** ** The pass on any registry *)

Section AnyRegistry.

Implicit Types (w : World) (fs : FlagSet) (f : Flag).
Variable ex : gmap string bool.

Lemma same_shape_refl fs : same_shape fs fs.
Proof.
  apply Forall2_same_length_lookup. split; [done|]. intros i f g H1 H2.
  simplify_eq. repeat split. by left.
Qed.

Lemma same_shape_trans fs1 fs2 fs3 :
  same_shape fs1 fs2 → same_shape fs2 fs3 → same_shape fs1 fs3.
Proof.
  unfold same_shape. intros H12 H23. revert fs3 H23.
  induction H12 as [|f1 f2 l1 l2 (Hn & Hd & Hc) _ IH]; intros fs3 H23.
  - by apply Forall2_nil_inv_l in H23 as ->.
  - apply Forall2_cons_inv_l in H23 as (f3 & l3 & (Hn' & Hd' & Hc') & H23 & ->).
    constructor; [|by apply IH].
    split; [congruence|]. split; [congruence|].
    destruct Hc' as [-> | ?]; [done | by right].
Qed.


Lemma FlagSet_Set_shape fs fs' name value :
  FlagSet_Set fs name value = Some fs' → same_shape fs fs'.
Proof.
  revert fs'. induction fs as [|g fs IH]; simpl; intros fs'; [done|].
  case_decide as E.
  - intros [= <-]. constructor; [|apply same_shape_refl].
    repeat split. by right.
  - destruct (FlagSet_Set fs name value) as [fs1|] eqn:Hs; simpl; [|done].
    intros [= <-]. constructor; [|by apply IH]. repeat split. by left.
Qed.

(** A write fails only for a name that is not registered. *)
Lemma FlagSet_Set_registered fs name value :
  name ∈ Name <$> fs → is_Some (FlagSet_Set fs name value).
Proof.
  induction fs as [|g fs IH]; simpl; intros Hin.
  - by apply elem_of_nil in Hin.
  - case_decide as E; [done|].
    apply elem_of_cons in Hin as [-> | Hin]; [done|].
    destruct (IH Hin) as [fs' ->]. done.
Qed.

Lemma untouched_refl w : untouched w w.
Proof. by repeat split. Qed.

Lemma untouched_trans w1 w2 w3 :
  untouched w1 w2 → untouched w2 w3 → untouched w1 w3.
Proof.
  intros (?&?&?&?&?&?&?) (?&?&?&?&?&?&?). repeat split; congruence.
Qed.

(** One visit, on any world: it returns, and this is all it does. *)
Lemma initFlag_effect f w :
  ∃ w', initFlag ex f w = Return tt w'
    ∧ store w' = (if index ex (Name f) then store w
                  else viper.SetDefault (Name f) (DefValue f) (store w))
    ∧ same_shape (flags w) (flags w')
    ∧ untouched w w'
    ∧ (sets w' = sets w ∨ ∃ v, sets w' = sets w ++ [(Name f, v)]).
Proof.
  unfold initFlag. destruct (index ex (Name f)) eqn:Hex.
  { exists w. repeat split; try done. - apply same_shape_refl. - by left. }
  unfold bind, viper_do, modify, viper_GetString. simpl.
  set (v := viper.GetString _ _ _ _).
  destruct (decide (v ≠ DefValue f)) as [Hne|Heq].
  - unfold flags_Set. simpl.
    destruct (FlagSet_Set (flags w) (Name f) v) as [fs'|] eqn:Hset; simpl;
      eexists; (split; [reflexivity|]); simpl; repeat split;
      try done; try (right; by exists v).
    + by eapply FlagSet_Set_shape.
    + apply same_shape_refl.
  - eexists. split; [reflexivity|]. simpl. repeat split; try done.
    + apply same_shape_refl.
    + by left.
Qed.

Lemma visit_effect l : ∀ w,
  ∃ w' ws, visit l (initFlag ex) w = Return tt w'
    ∧ same_shape (flags w) (flags w')
    ∧ untouched w w'
    ∧ viper.pflags (store w') = viper.pflags (store w)
    ∧ sets w' = sets w ++ ws
    ∧ Forall (λ nv, nv.1 ∈ Name <$> l) ws.
Proof.
  induction l as [|f l IH]; intros w.
  - exists w, []. rewrite app_nil_r. repeat split; try done.
    apply same_shape_refl.
  - destruct (initFlag_effect f w) as (w1 & Hrun1 & Hst1 & Hsh1 & Hun1 & Hs1).
    destruct (IH w1) as (w' & ws & Hrun & Hsh & Hun & Hpf & Hs & Hall).
    assert (Hpf1 : viper.pflags (store w1) = viper.pflags (store w)).
    { rewrite Hst1. by destruct (index ex (Name f)). }
    assert (Hall' : Forall (λ nv, nv.1 ∈ Name <$> f :: l) ws).
    { eapply Forall_impl; [exact Hall|]. intros nv Hin. simpl. by right. }
    destruct Hs1 as [Hs1 | [v Hs1]].
    + exists w', ws. split; [|split; [|split; [|split; [|split]]]].
      * change (visit (f :: l) (initFlag ex) w)
          with (bind (initFlag ex f) (λ _, visit l (initFlag ex)) w).
        unfold bind. by rewrite Hrun1.
      * by eapply same_shape_trans.
      * by eapply untouched_trans.
      * congruence.
      * by rewrite Hs, Hs1.
      * done.
    + exists w', ((Name f, v) :: ws). split; [|split; [|split; [|split; [|split]]]].
      * change (visit (f :: l) (initFlag ex) w)
          with (bind (initFlag ex f) (λ _, visit l (initFlag ex)) w).
        unfold bind. by rewrite Hrun1.
      * by eapply same_shape_trans.
      * by eapply untouched_trans.
      * congruence.
      * rewrite Hs, Hs1, <- app_assoc. done.
      * constructor; [|done]. simpl. left.
Qed.


(** The pass returns and is silent. *)
Lemma initFlags_quiet w :
  ∃ w', initFlags ex w = Return tt w' ∧ level w' = level w ∧ log w' = log w.
Proof.
  destruct (visit_effect (flags w)
    (with_store (viper.BindPFlags (flags w) (store w)) w))
    as (w' & ws & Hrun & _ & Hun & _).
  exists w'. split; [exact Hrun|]. by destruct Hun as (? & ? & _).
Qed.



End AnyRegistry.


(** ** The store after the pass *)

Section StoreAfter.

Import Strings.
Implicit Types (w : World) (fs : FlagSet) (f : Flag).
Variable ex : gmap string bool.




End StoreAfter.


(** ** What exclusion covers *)

(** X11. Exclusion protects the registry, not the store.  [BindPFlags]
    binds every flag and the environment lookup is automatic, so for an
    excluded flag that was not set, with its variable in the environment
    and not empty, the flag keeps its value while [GetString] of its name
    returns the variable's. *)
Theorem excluded_store_view (ex : gmap string bool) (w : World) (f : Flag)
    (val : string) :
  ascii_names (flags w) →
  distinct_keys (flags w) → f ∈ flags w → index ex (Name f) = true →
  Changed f = false → environ w !! envVar (Name f) = Some val →
  val ≠ "" →
  ∃ w', (initEnv ;;; initFlags ex) w = Return tt w'
    ∧ Lookup (flags w') (Name f) = Some f
    ∧ viper.GetString (store w') (environ w') (flags w') (Name f) = val.
Proof.
  intros _ Hd Hf Hex Hc Henv Hne.
  pose proof (distinct_keys_names _ Hd) as Hnd.
  unfold bind. rewrite initEnv_spec. set (w0 := with_store _ w).
  destruct (initFlags_spec ex w0 Hd) as (w' & Hrun & Hfl & _ & Hfr).
  assert (Hl : Lookup (flags w') (Name f) = Some f).
  { rewrite Hfl, Lookup_fmap; [| apply resolve1_Name | done | done].
    unfold resolve1. by rewrite Hex. }
  exists w'. split; [exact Hrun|]. split; [exact Hl|].
  unfold viper.GetString, viper.find.
  rewrite (frame_pflags _ w' Hfr). simpl viper.pflags.
  rewrite (BindPFlags_bound (flags w) _ f) by done. simpl.
  rewrite Hl. simpl. rewrite Hc.
  destruct Hfr as (_ & _ & He & _ & _ & _ & Hst).
  assert (Hb : env_bound (store w')).
  { destruct (BindPFlags_layers (flags w0) (store w0)) as (Ha & Hp & Hr & _).
    rewrite Hst. split; [|split].
    - change (viper.automaticEnvApplied
                (viper.BindPFlags (flags w0) (store w0)) = true).
      by rewrite Ha.
    - change (viper.envPrefix (viper.BindPFlags (flags w0) (store w0))
              = "falcoctl").
      by rewrite Hp.
    - change (viper.envKeyReplacer (viper.BindPFlags (flags w0) (store w0))
              = Some dash).
      by rewrite Hr. }
  rewrite (getEnv_bound _ _ _ Hb), He. simpl. rewrite Henv. simpl.
  by rewrite decide_False.
Qed.

Lemma excluded_store_view_witness :
  ascii_names (flags Demo.w)
  ∧ distinct_keys (flags Demo.w) ∧ Demo.loglevel ∈ flags Demo.w
  ∧ index exclude (Name Demo.loglevel) = true
  ∧ Changed Demo.loglevel = false
  ∧ environ Demo.w !! envVar (Name Demo.loglevel) = Some "trace"
  ∧ "trace" ≠ ""
  ∧ ∃ w', (initEnv ;;; initFlags exclude) Demo.w = Return tt w'
      ∧ Lookup (flags w') (Name Demo.loglevel) = Some Demo.loglevel
      ∧ viper.GetString (store w') (environ w') (flags w') (Name Demo.loglevel)
        = "trace".
Proof.
  assert (H1 : distinct_keys (flags Demo.w)) by by_evaluation.
  assert (H2 : Demo.loglevel ∈ flags Demo.w) by by_evaluation.
  assert (H3 : index exclude (Name Demo.loglevel) = true) by (vm_compute; reflexivity).
  assert (H4 : Changed Demo.loglevel = false) by reflexivity.
  assert (H5 : environ Demo.w !! envVar (Name Demo.loglevel) = Some "trace")
    by (vm_compute; reflexivity).
  assert (H0 : ascii_names (flags Demo.w)) by by_evaluation.
  assert (H6 : "trace" ≠ "") by discriminate.
  split; [exact H0|].
  split; [exact H1|]. split; [exact H2|]. split; [exact H3|].
  split; [exact H4|]. split; [exact H5|]. split; [exact H6|].
  exact (excluded_store_view exclude Demo.w Demo.loglevel "trace"
           H0 H1 H2 H3 H4 H5 H6).
Defined.

Lemma visit_all_excluded (ex : gmap string bool) l : ∀ w,
  Forall (λ f, index ex (Name f) = true) l →
  visit l (initFlag ex) w = Return tt w.
Proof.
  induction l as [|f l IH]; intros w Hall; [done|].
  apply Forall_cons in Hall as [Hf Hall].
  change (visit (f :: l) (initFlag ex) w)
    with (bind (initFlag ex f) (λ _, visit l (initFlag ex)) w).
  unfold bind, initFlag. rewrite Hf. simpl. by apply IH.
Qed.

(** X12. On a registry all of whose flags are excluded, as the root
    command's own, the pass writes nothing, registers no default and
    leaves every flag as it is; binding the flags is all it does. *)
Theorem initFlags_all_excluded (ex : gmap string bool) (w : World) :
  Forall (λ f, index ex (Name f) = true) (flags w) →
  initFlags ex w
  = Return tt (with_store (viper.BindPFlags (flags w) (store w)) w).
Proof.
  intros Hall. unfold initFlags, flags_VisitAll, bind, get, viper_do, modify.
  by apply visit_all_excluded.
Qed.

Lemma initFlags_all_excluded_witness :
  Forall (λ f, index exclude (Name f) = true) (flags Demo.w_root)
  ∧ initFlags exclude Demo.w_root
    = Return tt (with_store (viper.BindPFlags (flags Demo.w_root)
                               (store Demo.w_root)) Demo.w_root).
Proof.
  assert (H1 : Forall (λ f, index exclude (Name f) = true) (flags Demo.w_root))
    by by_evaluation.
  split; [exact H1|]. exact (initFlags_all_excluded exclude Demo.w_root H1).
Defined.

(** X14. The exclusion map of [New] excludes [config], [loglevel] and
    [help] and nothing else: its entry for [registryurl] is [false], which
    reads like a missing key. *)
Theorem exclude_exactly (name : string) :
  index exclude name = true ↔ name ∈ ["config"; "loglevel"; "help"].
Proof.
  split; [|apply index_exclude].
  unfold index, exclude. rewrite !elem_of_cons, elem_of_nil.
  destruct (decide (name = "config")) as [->|H1]; [by left|].
  destruct (decide (name = "loglevel")) as [->|H2]; [by right; left|].
  destruct (decide (name = "help")) as [->|H3]; [by right; right; left|].
  rewrite !lookup_insert_ne by done.
  destruct (decide (name = "registryurl")) as [->|H4].
  - by rewrite lookup_singleton_eq.
  - by rewrite lookup_singleton_ne.
Qed.

(** ** The debug trace, exactly *)

(** X13. [debugFlags] adds one debug entry to the log and changes nothing
    else.  On a registry without duplicate names the entry's fields hold a
    name with a value exactly when a flag of that name is marked as changed
    and holds that value: a flag set to its own default is listed, a flag
    that was never set is not. *)
Theorem debugFlags_exact (w : World) :
  NoDup (Name <$> flags w) →
  ∃ e, debugFlags w = Return tt (with_log (log w ++ [e]) w)
    ∧ logger.e_level e = logger.DebugLevel
    ∧ ∀ name value,
        logger.e_fields e !! name = Some value
        ↔ ∃ f, f ∈ flags w ∧ Name f = name ∧ Changed f = true
               ∧ Value f = value.
Proof.
  intros Hnd. exists (optionsEntry (flags w)).
  split; [reflexivity|]. split; [reflexivity|].
  intros name value. simpl. split; [apply changedFields_inv|].
  intros (f & Hf & <- & Hc & <-). by apply changedFields_lookup.
Qed.

Lemma debugFlags_exact_witness :
  NoDup (Name <$> flags Demo.w)
  ∧ ∃ e, debugFlags Demo.w = Return tt (with_log (log Demo.w ++ [e]) Demo.w)
      ∧ logger.e_level e = logger.DebugLevel
      ∧ ∀ name value,
          logger.e_fields e !! name = Some value
          ↔ ∃ f, f ∈ flags Demo.w ∧ Name f = name ∧ Changed f = true
                 ∧ Value f = value.
Proof.
  assert (H1 : NoDup (Name <$> flags Demo.w)) by by_evaluation.
  split; [exact H1|]. exact (debugFlags_exact Demo.w H1).
Defined.

(** ** The stages of [PersistentPreRun] *)

Section Stages.

Variable Validate : ConfigOptions → option (list error).

(** X1. [validateConfig] tests the slice against nil, not its length.  A
    nil result lets the run go on with nothing logged; a slice that is not
    nil but empty ends the process all the same, with the fatal entry as
    the only one logged. *)
Theorem validateConfig_nil_or_not (co : ConfigOptions) (w : World) :
  (Validate co = None → validateConfig Validate co w = Return tt w)
  ∧ (Validate co = Some [] →
     PersistentPreRun Validate co w
     = Exit 1 (with_log (log w ++ [logger.mkEntry logger.FatalLevel ∅
                                     "exiting for validation errors"]) w)).
Proof.
  split; intros Hv.
  - unfold validateConfig. by rewrite Hv.
  - unfold PersistentPreRun, validateConfig. rewrite Hv. reflexivity.
Qed.

(** X2. A log level the logger does not know ends the process in
    [initLogger]: the parse error is the one fatal entry logged, the level
    stays as it was, and neither the store nor the registry is touched;
    the arguments are not logged, no file is read. *)
Theorem initLogger_gate (co : ConfigOptions) (err : error) (w : World) :
  Validate co = None → logger.ParseLevel (LogLevel co) = inr err →
  PersistentPreRun Validate co w
  = Exit 1 (with_log (log w ++ [logger.mkEntry logger.FatalLevel ∅ (Error err)]) w).
Proof.
  intros Hv Hp. unfold PersistentPreRun, validateConfig, initLogger.
  rewrite Hv, Hp. reflexivity.
Qed.

End Stages.

Lemma validateConfig_nil_or_not_witness :
  (Demo.Validate Demo.configOptions = None →
   validateConfig Demo.Validate Demo.configOptions Demo.w = Return tt Demo.w)
  ∧ (Demo.emptySlice Demo.configOptions = Some [] →
     PersistentPreRun Demo.emptySlice Demo.configOptions Demo.w
     = Exit 1 (with_log (log Demo.w ++ [logger.mkEntry logger.FatalLevel ∅
                                          "exiting for validation errors"])
                 Demo.w)).
Proof.
  split.
  - exact (proj1 (validateConfig_nil_or_not Demo.Validate Demo.configOptions Demo.w)).
  - exact (proj2 (validateConfig_nil_or_not Demo.emptySlice Demo.configOptions Demo.w)).
Defined.

Lemma initLogger_gate_witness :
  Demo.noErrors Demo.loudOptions = None
  ∧ logger.ParseLevel (LogLevel Demo.loudOptions)
    = inr (errorString "not a valid logrus Level: loud")
  ∧ PersistentPreRun Demo.noErrors Demo.loudOptions Demo.w
    = Exit 1 (with_log (log Demo.w ++
                [logger.mkEntry logger.FatalLevel ∅
                   "not a valid logrus Level: loud"]) Demo.w).
Proof.
  assert (H1 : Demo.noErrors Demo.loudOptions = None) by reflexivity.
  assert (H2 : logger.ParseLevel (LogLevel Demo.loudOptions)
               = inr (errorString "not a valid logrus Level: loud"))
    by (vm_compute; reflexivity).
  split; [exact H1|]. split; [exact H2|].
  exact (initLogger_gate Demo.noErrors Demo.loudOptions _ Demo.w H1 H2).
Defined.

(** ** A configuration file that loads *)

(** X3. With an explicit path to a file that parses, [initConfig] goes on:
    the decoded pairs replace the file layer of the store, the path is the
    file in use, and the one entry logged is an info entry naming it.  The
    home directory plays no part: the outcome is the same when it cannot
    be found. *)
Theorem initConfig_explicit_loads (p : string) (kv : gmap string string)
    (w : World) :
  p ≠ "" → files w !! p = Some (viper.Document kv) →
  ∃ w', initConfig p w = Return tt w'
    ∧ viper.config (store w') = kv
    ∧ viper.ConfigFileUsed (store w') = p
    ∧ log w' = log w ++ [logger.mkEntry logger.InfoLevel
                           (logger.WithField "file" p ∅) "using config file"]
    ∧ flags w' = flags w ∧ level w' = level w.
Proof.
  intros Hp Hf. rewrite initConfig_explicit by done.
  unfold bind, viper_ReadInConfig, viper.ReadInConfig. simpl store. simpl files.
  simpl viper.configFile. rewrite decide_False by done. rewrite Hf.
  eexists. split; [reflexivity|]. done.
Qed.

Lemma initConfig_explicit_loads_witness :
  "/etc/falcoctl.yaml" ≠ ""
  ∧ files Demo.w_homeless !! "/etc/falcoctl.yaml" = Some (viper.Document Demo.file)
  ∧ home Demo.w_homeless = inr (errorString "$HOME is not defined")
  ∧ ∃ w', initConfig "/etc/falcoctl.yaml" Demo.w_homeless = Return tt w'
      ∧ viper.config (store w') = Demo.file
      ∧ viper.ConfigFileUsed (store w') = "/etc/falcoctl.yaml"
      ∧ log w' = log Demo.w_homeless
                 ++ [logger.mkEntry logger.InfoLevel
                       (logger.WithField "file" "/etc/falcoctl.yaml" ∅)
                       "using config file"]
      ∧ flags w' = flags Demo.w_homeless ∧ level w' = level Demo.w_homeless.
Proof.
  assert (H1 : "/etc/falcoctl.yaml" ≠ "") by discriminate.
  assert (H2 : files Demo.w_homeless !! "/etc/falcoctl.yaml"
               = Some (viper.Document Demo.file)) by (vm_compute; reflexivity).
  split; [exact H1|]. split; [exact H2|]. split; [reflexivity|].
  exact (initConfig_explicit_loads _ Demo.file Demo.w_homeless H1 H2).
Defined.

(** X4. With no explicit path, the default search takes the first file
    it finds under the home directory: [config] with the supported
    extensions, in their order.  When that file parses, [initConfig] goes
    on: the decoded pairs replace the file layer of the store, and the
    one entry it logs is an info entry naming that file as the file in
    use.  So [config.yaml] is the file in use only when no [config.json]
    and no [config.toml] lies beside it. *)
Theorem initConfig_default_loads (h : string) (pre post : list string)
    (ext : string) (kv : gmap string string) (w : World) :
  home w = inl h → filepath.IsAbs h = true →
  viper.configPaths (store w) = [] →
  viper.supportedExts (store w) = pre ++ ext :: post →
  Forall (λ e, absent (files w) (defaultConfigFileAs h e)) pre →
  files w !! defaultConfigFileAs h ext = Some (viper.Document kv) →
  ∃ w', initConfig "" w = Return tt w'
    ∧ viper.config (store w') = kv
    ∧ viper.ConfigFileUsed (store w') = defaultConfigFileAs h ext
    ∧ log w' = log w ++ [logger.mkEntry logger.InfoLevel
                           (logger.WithField "file" (defaultConfigFileAs h ext) ∅)
                           "using config file"]
    ∧ flags w' = flags w ∧ level w' = level w.
Proof.
  intros Hh Habs Hp Hexts Hpre Hf. rewrite (initConfig_default h) by done.
  destruct (defaultSearch_located h (store w) (files w) Habs Hp)
    as (Hcf & Hfind & Hc).
  rewrite (defaultCandidates_split _ _ _ _ _ Hexts) in Hfind.
  rewrite (firstExisting_found _ _ _ _ _ (Forall_fmap_absent _ _ _ Hpre) Hf)
    in Hfind.
  unfold bind, viper_ReadInConfig, viper.ReadInConfig. simpl store. simpl files.
  rewrite Hcf, Hfind. rewrite decide_True by done. rewrite Hf.
  eexists. split; [reflexivity|]. done.
Qed.

Lemma initConfig_default_loads_witness :
  home Demo.w_start = inl "/home/u"
  ∧ filepath.IsAbs "/home/u" = true
  ∧ viper.configPaths (store Demo.w_start) = []
  ∧ viper.supportedExts (store Demo.w_start)
    = ["json"; "toml"] ++ "yaml" :: Demo.laterExts
  ∧ Forall (λ e, absent (files Demo.w_start) (defaultConfigFileAs "/home/u" e))
           ["json"; "toml"]
  ∧ files Demo.w_start !! defaultConfigFileAs "/home/u" "yaml"
    = Some (viper.Document Demo.file)
  ∧ defaultConfigFileAs "/home/u" "yaml" = "/home/u/.falcoctl/config.yaml"
  ∧ ∃ w', initConfig "" Demo.w_start = Return tt w'
      ∧ viper.config (store w') = Demo.file
      ∧ viper.ConfigFileUsed (store w') = defaultConfigFileAs "/home/u" "yaml"
      ∧ log w' = log Demo.w_start
                 ++ [logger.mkEntry logger.InfoLevel
                       (logger.WithField "file"
                          (defaultConfigFileAs "/home/u" "yaml") ∅)
                       "using config file"]
      ∧ flags w' = flags Demo.w_start ∧ level w' = level Demo.w_start.
Proof.
  assert (H1 : home Demo.w_start = inl "/home/u") by reflexivity.
  assert (H2 : filepath.IsAbs "/home/u" = true) by reflexivity.
  assert (H3 : viper.configPaths (store Demo.w_start) = []) by reflexivity.
  assert (H4 : viper.supportedExts (store Demo.w_start)
               = ["json"; "toml"] ++ "yaml" :: Demo.laterExts) by reflexivity.
  assert (H5 : Forall (λ e, absent (files Demo.w_start)
                              (defaultConfigFileAs "/home/u" e))
                      ["json"; "toml"]) by by_evaluation.
  assert (H6 : files Demo.w_start !! defaultConfigFileAs "/home/u" "yaml"
               = Some (viper.Document Demo.file)) by (vm_compute; reflexivity).
  split; [exact H1|]. split; [exact H2|]. split; [exact H3|].
  split; [exact H4|]. split; [exact H5|]. split; [exact H6|].
  split; [vm_compute; reflexivity|].
  exact (initConfig_default_loads "/home/u" _ _ "yaml" Demo.file Demo.w_start
           H1 H2 H3 H4 H5 H6).
Defined.

(** X5. With no explicit path and a home directory that cannot be found,
    [initConfig] ends the process before it reads anything: the store is
    as it was, and the one entry logged is fatal and carries the error. *)
Theorem initConfig_no_home (err : error) (w : World) :
  home w = inr err →
  initConfig "" w
  = Exit 1 (with_log (log w ++ [logger.mkEntry logger.FatalLevel
                                  (logger.WithError err ∅)
                                  "error getting the home directory"]) w).
Proof.
  intros Hh. unfold initConfig. rewrite decide_False by (intros H; by apply H).
  unfold bind at 1. unfold bind at 1. unfold get. rewrite Hh. reflexivity.
Qed.

Lemma initConfig_no_home_witness :
  home Demo.w_homeless = inr (errorString "$HOME is not defined")
  ∧ initConfig "" Demo.w_homeless
    = Exit 1 (with_log (log Demo.w_homeless
                ++ [logger.mkEntry logger.FatalLevel
                      (logger.WithError (errorString "$HOME is not defined") ∅)
                      "error getting the home directory"]) Demo.w_homeless).
Proof.
  assert (H1 : home Demo.w_homeless = inr (errorString "$HOME is not defined"))
    by reflexivity.
  split; [exact H1|]. exact (initConfig_no_home _ Demo.w_homeless H1).
Defined.

(** ** Every way [PersistentPreRun] ends *)

Section Endings.

Variable Validate : ConfigOptions → option (list error).

Lemma guarded_bind {A B} (m : M A) (k : A → M B) :
  guarded m → (∀ a, guarded (k a)) → guarded (bind m k).
Proof.
  intros Hm Hk w. unfold bind. specialize (Hm w).
  destruct (m w) as [a w1 | c w1]; [|done].
  specialize (Hk a w1). destruct (k a w1) as [b w2 | c w2].
  - destruct Hm, Hk. split; congruence.
  - destruct Hm as [? ?], Hk as (? & ? & ? & ?). repeat split; congruence.
Qed.

Lemma guarded_exits {A B} (m : M A) (k : A → M B) :
  guarded m → (∀ a, exits_guarded (k a)) → exits_guarded (bind m k).
Proof.
  intros Hm Hk w c w'. unfold bind. specialize (Hm w).
  destruct (m w) as [a w1 | c1 w1].
  - intros Hx. destruct (Hk a w1 c w' Hx) as (? & ? & ? & ?), Hm.
    repeat split; congruence.
  - intros [= <- <-]. done.
Qed.

Lemma guarded_emit l fields msg : guarded (emit l fields msg).
Proof. by intros w. Qed.

Lemma guarded_Fatal {A} fields msg : guarded (@logger_Fatal A fields msg).
Proof.
  intros w. unfold logger_Fatal, fatal. simpl. split; [done|]. split; [|done].
  eexists. by rewrite last_snoc.
Qed.

Lemma guarded_viper_do f : guarded (viper_do f).
Proof. by intros w. Qed.

Lemma guarded_range errs (body : error → M unit) :
  (∀ e, guarded (body e)) → guarded (range errs body).
Proof.
  intros Hb. induction errs as [|e errs IH]; [by intros w|].
  apply guarded_bind; [apply Hb | intros _; apply IH].
Qed.

Lemma guarded_validateConfig co : guarded (validateConfig Validate co).
Proof.
  unfold validateConfig. destruct (Validate co); [|by intros w].
  apply guarded_bind; [|intros _; apply guarded_Fatal].
  apply guarded_range. intros e. apply guarded_emit.
Qed.

Lemma guarded_initLogger lvl : guarded (initLogger lvl).
Proof.
  unfold initLogger. destruct (logger.ParseLevel lvl);
    [by intros w | apply guarded_Fatal].
Qed.

Lemma guarded_initEnv : guarded initEnv.
Proof. by intros w. Qed.

Lemma guarded_initConfig p : guarded (initConfig p).
Proof.
  unfold initConfig. apply guarded_bind.
  - destruct (decide (p ≠ "")); [apply guarded_viper_do|].
    apply guarded_bind; [by intros w|]. intros [h | err].
    + repeat (apply guarded_bind; [apply guarded_viper_do | intros _]).
      apply guarded_viper_do.
    + apply guarded_Fatal.
  - intros _. apply guarded_bind.
    + intros w. unfold viper_ReadInConfig.
      by destruct (viper.ReadInConfig (store w) (files w)).
    + intros [err|].
      * destruct err; try (apply guarded_bind; [by intros w | intros used;
          apply guarded_Fatal]).
        apply guarded_emit.
      * apply guarded_bind; [by intros w | intros used; apply guarded_emit].
Qed.

(** X6. However [PersistentPreRun] ends the process, it does so with exit
    status 1 and a fatal entry as the last one logged, and with the flag
    registry exactly as it found it: no write has been made.  Once the
    flags are being resolved the run can no longer fail. *)
Theorem PersistentPreRun_exits (co : ConfigOptions) (w : World)
    (code : Z) (w' : World) :
  PersistentPreRun Validate co w = Exit code w' →
  code = 1%Z ∧ fatal w' ∧ flags w' = flags w ∧ sets w' = sets w.
Proof.
  revert w code w'. change (exits_guarded (PersistentPreRun Validate co)).
  unfold PersistentPreRun.
  apply guarded_exits; [apply guarded_validateConfig | intros _].
  apply guarded_exits; [apply guarded_initLogger | intros _].
  apply guarded_exits; [by intros w | intros args].
  apply guarded_exits; [apply guarded_emit | intros _].
  apply guarded_exits; [apply guarded_initConfig | intros _].
  apply guarded_exits; [apply guarded_initEnv | intros _].
  intros w code w' Hx. unfold bind in Hx.
  destruct (initFlags_quiet exclude w) as (w1 & Hrun & _).
  rewrite Hrun in Hx. discriminate Hx.
Qed.

End Endings.

Lemma PersistentPreRun_exits_witness :
  PersistentPreRun Demo.Validate Demo.configOptions Demo.w_malformed
  = Exit 1 (final (PersistentPreRun Demo.Validate Demo.configOptions
                     Demo.w_malformed))
  ∧ 1%Z = 1%Z
  ∧ fatal (final (PersistentPreRun Demo.Validate Demo.configOptions
                    Demo.w_malformed))
  ∧ flags (final (PersistentPreRun Demo.Validate Demo.configOptions
                    Demo.w_malformed)) = flags Demo.w_malformed
  ∧ sets (final (PersistentPreRun Demo.Validate Demo.configOptions
                   Demo.w_malformed)) = sets Demo.w_malformed.
Proof.
  assert (H : PersistentPreRun Demo.Validate Demo.configOptions Demo.w_malformed
              = Exit 1 (final (PersistentPreRun Demo.Validate
                                 Demo.configOptions Demo.w_malformed)))
    by (vm_compute; reflexivity).
  split; [exact H|].
  exact (PersistentPreRun_exits Demo.Validate Demo.configOptions
           Demo.w_malformed 1 _ H).
Defined.

(** ** A run that goes through *)

Section GoesThrough.

Variable Validate : ConfigOptions → option (list error).

(** What [initConfig] leaves behind when it returns. *)
Lemma initConfig_returns p w w' :
  initConfig p w = Return tt w' →
  flags w' = flags w ∧ sets w' = sets w ∧ level w' = level w
  ∧ environ w' = environ w
  ∧ ∃ e, log w' = log w ++ [e]
      ∧ (e = logger.mkEntry logger.DebugLevel ∅
               "running without a configuration file"
         ∨ logger.e_level e = logger.InfoLevel
           ∧ logger.e_msg e = "using config file").
Proof.
  unfold initConfig, bind, viper_do, modify, get, viper_ReadInConfig,
    viper_ConfigFileUsed, logger_Info, logger_Debug, logger_Fatal, emit.
  intros H. repeat case_match; unfold get, modify in *; simplify_eq; simpl;
    (repeat split; try done; eexists; split; [reflexivity|]);
    first [by left | by right].
Qed.

(** X7. When [PersistentPreRun] returns, validation raised nothing, the
    logger is at the level the option names, and exactly three entries
    were logged, in this order: the arguments (debug), the note on the
    configuration file (found, or running without one), and the options in
    effect (debug), which are the changed flags of the registry as the run
    leaves it. *)
Theorem PersistentPreRun_returns (co : ConfigOptions) (w w' : World) :
  PersistentPreRun Validate co w = Return tt w' →
  Validate co = None
  ∧ logger.ParseLevel (LogLevel co) = inl (level w')
  ∧ ∃ e, log w' = log w ++ [argsEntry w; e; optionsEntry (flags w')]
      ∧ (e = logger.mkEntry logger.DebugLevel ∅
               "running without a configuration file"
         ∨ logger.e_level e = logger.InfoLevel
           ∧ logger.e_msg e = "using config file").
Proof.
  unfold PersistentPreRun. intros H.
  unfold bind at 1 in H. unfold validateConfig in H.
  destruct (Validate co) as [errs|] eqn:Hv.
  { exfalso. unfold bind at 1 in H.
    rewrite range_validation in H. discriminate H. }
  unfold ret in H. unfold bind at 1 in H. unfold initLogger in H.
  destruct (logger.ParseLevel (LogLevel co)) as [l|err] eqn:Hp;
    [|discriminate H].
  unfold logger_SetLevel, modify in H.
  unfold bind at 1 in H. unfold get in H.
  unfold bind at 1 in H. unfold logger_Debug at 1, emit, modify in H.
  unfold bind at 1 in H.
  destruct (initConfig (ConfigFile co) _) as [[] w3|] eqn:Hc; [|discriminate H].
  apply initConfig_returns in Hc as (Hf3 & Hs3 & Hl3 & He3 & e & Hlog3 & Hm).
  unfold bind at 1 in H. rewrite initEnv_spec in H.
  unfold bind at 1 in H.
  destruct (initFlags_quiet exclude
              (with_store (viper.SetEnvKeyReplacer dash
                 (viper.SetEnvPrefix "falcoctl" (viper.AutomaticEnv (store w3))))
                 w3)) as (w4 & Hrun & Hl4 & Hlog4).
  rewrite Hrun in H. unfold debugFlags, bind, get, logger_Debug, emit, modify in H.
  simplify_eq. simpl in *.
  split; [done|]. split; [by rewrite Hl4, Hl3|].
  exists e. split; [|done].
  rewrite Hlog4, Hlog3. rewrite <- !app_assoc. reflexivity.
Qed.



End GoesThrough.

Lemma PersistentPreRun_returns_witness :
  PersistentPreRun Demo.Validate Demo.configOptions Demo.w_start
  = Return tt (final (PersistentPreRun Demo.Validate Demo.configOptions
                        Demo.w_start))
  ∧ Demo.Validate Demo.configOptions = None
  ∧ logger.ParseLevel (LogLevel Demo.configOptions)
    = inl (level (final (PersistentPreRun Demo.Validate Demo.configOptions
                           Demo.w_start)))
  ∧ ∃ e, log (final (PersistentPreRun Demo.Validate Demo.configOptions
                       Demo.w_start))
         = log Demo.w_start
           ++ [argsEntry Demo.w_start; e;
               optionsEntry (flags (final (PersistentPreRun Demo.Validate
                                             Demo.configOptions Demo.w_start)))]
      ∧ (e = logger.mkEntry logger.DebugLevel ∅
               "running without a configuration file"
         ∨ logger.e_level e = logger.InfoLevel
           ∧ logger.e_msg e = "using config file").
Proof.
  assert (H : PersistentPreRun Demo.Validate Demo.configOptions Demo.w_start
              = Return tt (final (PersistentPreRun Demo.Validate
                                    Demo.configOptions Demo.w_start)))
    by (vm_compute; reflexivity).
  split; [exact H|].
  exact (PersistentPreRun_returns Demo.Validate Demo.configOptions
           Demo.w_start _ H).
Defined.


(** ** More on the signal-aware context *)

Section SignalMore.

Import Signals.

Lemma received_inj s s' : received s = received s' → s = s'.
Proof. by destruct s, s'. Qed.

Lemma Inv_alive_step e st st' :
  e ≠ ParentCancel → step e st = Some st' → Inv_alive st → Inv_alive st'.
Proof.
  intros He Hs [Hp Ht]. destruct e; simpl in Hs; [done|..].
  - destruct (sigCh st); simplify_eq; by split.
  - destruct (task st) eqn:Et, (ctx st) eqn:Ec; simplify_eq.
    by destruct Ht.
  - destruct (task st) eqn:Et, (sigCh st); simplify_eq. by split.
  - destruct (task st) eqn:Et; simplify_eq. destruct Ht as [Hc Hl].
    split; [done|]. simpl. split; [done|]. rewrite Hl. by exists s.
  - destruct (task st) eqn:Et; simplify_eq. destruct Ht as [Hc Hl].
    by split.
Qed.

Lemma Inv_alive_run tr : ∀ st st',
  ParentCancel ∉ tr → run tr st = Some st' → Inv_alive st → Inv_alive st'.
Proof.
  induction tr as [|e tr IH]; simpl; intros st st' Hn Hr Hi; [by simplify_eq|].
  apply not_elem_of_cons in Hn as [He Hn].
  destruct (step e st) as [st1|] eqn:Hs; simpl in Hr; [|done].
  eapply IH; [done | done |]. eapply Inv_alive_step; [|done|done]. congruence.
Qed.

Lemma run_log_done tr : ∀ st st',
  run tr st = Some st' → task st = Returning ∨ task st = Exited →
  log st' = log st.
Proof.
  induction tr as [|e tr IH]; simpl; intros st st' Hr Ht; [by simplify_eq|].
  destruct (step e st) as [st1|] eqn:Hs; simpl in Hr; [|done].
  assert (log st1 = log st ∧ (task st1 = Returning ∨ task st1 = Exited))
    as [Hl Ht1].
  { destruct e; simpl in Hs; destruct Ht as [Ht | Ht]; rewrite ?Ht in Hs;
      repeat case_match; simplify_eq; simpl; auto. }
  rewrite <- Hl. by apply IH.
Qed.

(** The one signal a run logs is the one the goroutine was bound to. *)
Lemma log_awaited tr : ∀ st st' s,
  run tr st = Some st' → log st = [] →
  (task st = Selecting ∨ ∃ c, task st = Received c) →
  received s ∈ log st' → awaited st tr = Some s.
Proof.
  induction tr as [|e tr IH]; simpl; intros st st' s Hr Hl Ht Hin.
  { simplify_eq. rewrite Hl in Hin. by apply elem_of_nil in Hin. }
  destruct (step e st) as [st1|] eqn:Hs; simpl in Hr; [|done].
  unfold awaited. destruct e; simpl in Hs.
  - simplify_eq. rewrite <- (IH _ _ s Hr); [done | done | done | done].
  - destruct (sigCh st) as [c|] eqn:Ec; simplify_eq.
    + rewrite <- (IH _ _ s Hr Hl Ht Hin). unfold awaited. by rewrite Ec.
    + rewrite <- (IH _ _ s Hr); [| done | done | done].
      unfold awaited. simpl. destruct Ht as [-> | [c ->]]; done.
  - destruct (task st) eqn:Et, (ctx st); simplify_eq.
    rewrite (run_log_done _ _ _ Hr) in Hin by (by left).
    simpl in Hin. rewrite Hl in Hin. by apply elem_of_nil in Hin.
  - destruct (task st) eqn:Et, (sigCh st) as [c|] eqn:Ec; simplify_eq.
    rewrite <- (IH _ _ s Hr); [done | done | by right; eexists | done].
  - destruct (task st) eqn:Et; simplify_eq.
    rewrite (run_log_done _ _ _ Hr) in Hin by (by left).
    simpl in Hin. rewrite Hl in Hin. simpl in Hin.
    apply list_elem_of_singleton in Hin. by apply received_inj in Hin as ->.
  - destruct Ht as [Ht | [c Ht]]; rewrite Ht in Hs; done.
Qed.

(** X16. The signal a run logs is the first one the runtime relayed; any
    later one has been dropped on the full channel or is left in it
    unread.  This holds whatever the state of the parent. *)
Theorem logged_signal_is_first (p : CtxState) (tr : list Event) (st : State)
    (s : Signal) :
  run tr (WithSignals p) = Some st → received s ∈ log st →
  first_signal tr = Some s.
Proof.
  intros Hr Hin. by apply (log_awaited tr (WithSignals p) st s Hr); [|left|].
Qed.

(** X17. Under [Execute] the parent is the background context, which
    nobody cancels.  Then the derived context is Cancelled exactly when
    the goroutine has finished, which it does only after logging the first
    signal relayed; as long as no signal is relayed the context stays
    Active and nothing is logged. *)
Theorem Execute_cancelled_by_signal (tr : list Event) (st : State) :
  (ParentCancel ∉ tr) → run tr Execute = Some st →
  (ctx st = Cancelled ↔ task st = Exited)
  ∧ (ctx st = Cancelled → ∃ s, log st = [received s] ∧ first_signal tr = Some s)
  ∧ (first_signal tr = None → ctx st = Active ∧ log st = []).
Proof.
  intros Hn Hr.
  assert (Hi : Inv_alive st).
  { eapply Inv_alive_run; [done | done |]. by split. }
  assert (Hfirst : ∀ s, log st = [received s] → first_signal tr = Some s).
  { intros s Hl.
    apply (log_awaited tr Execute st s Hr); [done | by left | rewrite Hl; left]. }
  destruct Hi as [_ Ht]. split; [|split].
  - destruct (task st); destruct Ht as [Hc _]; rewrite Hc; split; done.
  - intros Hc. destruct (task st); destruct Ht as [Hc' Hl]; try congruence.
    destruct Hl as [s Hl]. exists s. split; [done | by apply Hfirst].
  - intros Hnone. destruct (task st); destruct Ht as [Hc Hl]; try done;
      destruct Hl as [s Hl]; apply Hfirst in Hl; congruence.
Qed.

Lemma rank_run tr : ∀ st st',
  run tr st = Some st' → (steps_taken tr + rank (task st') ≤ rank (task st))%nat.
Proof.
  induction tr as [|e tr IH]; intros st st' Hr.
  { simpl in Hr. simplify_eq. unfold steps_taken. simpl. lia. }
  simpl in Hr. destruct (step e st) as [st1|] eqn:Hs; simpl in Hr; [|done].
  specialize (IH _ _ Hr). unfold steps_taken in *. simpl.
  destruct e; simpl in *; repeat case_match; simplify_eq; simpl in *; lia.
Qed.

(** X18. The goroutine runs once and does not loop: whatever happens, a
    run holds at most three of its steps (receive, log, cancel), and the
    steps taken and the statements still before it never add up to more
    than three. *)
Theorem goroutine_steps_bounded (p : CtxState) (tr : list Event) (st : State) :
  run tr (WithSignals p) = Some st →
  (steps_taken tr + rank (task st) ≤ 3)%nat.
Proof. intros Hr. exact (rank_run tr _ _ Hr). Qed.

(** X19. [WithSignals] on a parent that is already cancelled returns a
    context that is Cancelled from the start: no run ever sees it Active,
    and none takes the transition. *)
Theorem WithSignals_cancelled_parent (tr : list Event) (st : State) :
  run tr (WithSignals Cancelled) = Some st →
  ctx (WithSignals Cancelled) = Cancelled
  ∧ ctx st = Cancelled
  ∧ transitions tr (WithSignals Cancelled) = 0.
Proof.
  intros Hr. split; [done|]. by apply (run_Cancelled tr (WithSignals Cancelled)).
Qed.

(** X20. While the goroutine waits in its [select] it cannot be starved of
    its way out: after a relayed signal its three steps can run, and they
    end with the context Cancelled and the signal logged that was first in
    the channel; after the parent's cancellation its two steps can run,
    and they end with nothing logged. *)
Theorem goroutine_can_finish (st : State) (s : Signal) :
  task st = Selecting →
  (∃ st', run [Notify s; CaseSignal; Switch; DeferredCancel] st = Some st'
     ∧ ctx st' = Cancelled ∧ task st' = Exited
     ∧ log st' = log st ++ [received (default s (sigCh st))])
  ∧ (∃ st', run [ParentCancel; CaseDone; DeferredCancel] st = Some st'
       ∧ ctx st' = Cancelled ∧ task st' = Exited ∧ log st' = log st).
Proof.
  intros Ht. split.
  - simpl. destruct (sigCh st) as [c|] eqn:Ec; simpl; rewrite Ht, ?Ec; simpl;
      eexists; (split; [reflexivity|]); done.
  - simpl. rewrite Ht. simpl. eexists. split; [reflexivity|]. done.
Qed.

End SignalMore.

Lemma logged_signal_is_first_witness :
  Signals.run Signals.scenario (Signals.WithSignals Signals.Active)
  = Some Signals.afterScenario
  ∧ Signals.received Signals.SIGINT ∈ Signals.log Signals.afterScenario
  ∧ Signals.first_signal Signals.scenario = Some Signals.SIGINT.
Proof.
  assert (H1 : Signals.run Signals.scenario (Signals.WithSignals Signals.Active)
               = Some Signals.afterScenario) by reflexivity.
  assert (H2 : Signals.received Signals.SIGINT
               ∈ Signals.log Signals.afterScenario) by left.
  split; [exact H1|]. split; [exact H2|].
  exact (logged_signal_is_first Signals.Active Signals.scenario
           Signals.afterScenario Signals.SIGINT H1 H2).
Defined.

Lemma Execute_cancelled_by_signal_witness :
  (Signals.ParentCancel ∉ Signals.scenario)
  ∧ Signals.run Signals.scenario Signals.Execute = Some Signals.afterScenario
  ∧ (Signals.ctx Signals.afterScenario = Signals.Cancelled
     ↔ Signals.task Signals.afterScenario = Signals.Exited)
  ∧ (Signals.ctx Signals.afterScenario = Signals.Cancelled →
     ∃ s, Signals.log Signals.afterScenario = [Signals.received s]
          ∧ Signals.first_signal Signals.scenario = Some s)
  ∧ (Signals.first_signal Signals.scenario = None →
     Signals.ctx Signals.afterScenario = Signals.Active
     ∧ Signals.log Signals.afterScenario = []).
Proof.
  assert (H1 : Signals.ParentCancel ∉ Signals.scenario).
  { unfold Signals.scenario. rewrite !not_elem_of_cons.
    repeat split; try discriminate. apply not_elem_of_nil. }
  assert (H2 : Signals.run Signals.scenario Signals.Execute
               = Some Signals.afterScenario) by reflexivity.
  split; [exact H1|]. split; [exact H2|].
  exact (Execute_cancelled_by_signal Signals.scenario Signals.afterScenario H1 H2).
Defined.

Lemma goroutine_steps_bounded_witness :
  Signals.run Signals.scenario (Signals.WithSignals Signals.Active)
  = Some Signals.afterScenario
  ∧ (Signals.steps_taken Signals.scenario
     + Signals.rank (Signals.task Signals.afterScenario) ≤ 3)%nat.
Proof.
  assert (H1 : Signals.run Signals.scenario (Signals.WithSignals Signals.Active)
               = Some Signals.afterScenario) by reflexivity.
  split; [exact H1|].
  exact (goroutine_steps_bounded Signals.Active Signals.scenario
           Signals.afterScenario H1).
Defined.

Lemma WithSignals_cancelled_parent_witness :
  Signals.run [Signals.Notify Signals.SIGTERM; Signals.CaseDone;
               Signals.DeferredCancel]
    (Signals.WithSignals Signals.Cancelled)
  = Some (Signals.mkState Signals.Cancelled Signals.Cancelled Signals.Exited
            (Some Signals.SIGTERM) [])
  ∧ Signals.ctx (Signals.WithSignals Signals.Cancelled) = Signals.Cancelled
  ∧ Signals.ctx (Signals.mkState Signals.Cancelled Signals.Cancelled
                   Signals.Exited (Some Signals.SIGTERM) []) = Signals.Cancelled
  ∧ Signals.transitions [Signals.Notify Signals.SIGTERM; Signals.CaseDone;
                         Signals.DeferredCancel]
      (Signals.WithSignals Signals.Cancelled) = 0.
Proof.
  assert (H1 : Signals.run [Signals.Notify Signals.SIGTERM; Signals.CaseDone;
                            Signals.DeferredCancel]
                 (Signals.WithSignals Signals.Cancelled)
               = Some (Signals.mkState Signals.Cancelled Signals.Cancelled
                         Signals.Exited (Some Signals.SIGTERM) []))
    by reflexivity.
  split; [exact H1|].
  exact (WithSignals_cancelled_parent _ _ H1).
Defined.

Lemma goroutine_can_finish_witness :
  Signals.task (Signals.WithSignals Signals.Active) = Signals.Selecting
  ∧ (∃ st', Signals.run [Signals.Notify Signals.SIGTERM; Signals.CaseSignal;
                         Signals.Switch; Signals.DeferredCancel]
              (Signals.WithSignals Signals.Active) = Some st'
       ∧ Signals.ctx st' = Signals.Cancelled
       ∧ Signals.task st' = Signals.Exited
       ∧ Signals.log st' = Signals.log (Signals.WithSignals Signals.Active)
           ++ [Signals.received
                 (default Signals.SIGTERM
                    (Signals.sigCh (Signals.WithSignals Signals.Active)))])
  ∧ (∃ st', Signals.run [Signals.ParentCancel; Signals.CaseDone;
                         Signals.DeferredCancel]
              (Signals.WithSignals Signals.Active) = Some st'
       ∧ Signals.ctx st' = Signals.Cancelled
       ∧ Signals.task st' = Signals.Exited
       ∧ Signals.log st' = Signals.log (Signals.WithSignals Signals.Active)).
Proof.
  assert (H1 : Signals.task (Signals.WithSignals Signals.Active)
               = Signals.Selecting) by reflexivity.
  split; [exact H1|].
  exact (goroutine_can_finish (Signals.WithSignals Signals.Active)
           Signals.SIGTERM H1).
Defined.

(** ** Options that share a variable *)

Section SharedVariable.

Import Strings.
Variable ex : gmap string bool.




End SharedVariable.

